(** * Embedding cache and nearest-neighbour ranking of
      notebooks/embeddings/embedding-search.ipynb

    A shallow embedding of the notebook's cache cell, of
    [embedding_from_string], [distances_from_embeddings],
    [indices_of_closest_matches_from_distances] and
    [print_recommendations_from_strings], followed by the properties
    established about them.

    Numbers are IEEE binary64 values (Rocq's primitive floats), as numpy's
    float64; the module-level dict is a [gmap] keyed by (text, model);
    the pickle file, the calls to the embedding provider and the printed
    output are fields of an explicit [World] that every operation threads. *)

From Stdlib Require Import ZArith List Lia Floats Sorted.
From stdpp Require Import base gmap strings list sorting.

Local Open Scope Z_scope.
Local Open Scope nat_scope.

(* ===================================================================== *)
(** ** Exceptions *)
(* ===================================================================== *)

(** The Python exceptions that the modelled cells can raise. [APIError]
    stands for whatever the embedding provider raises. *)
Inductive exn : Set :=
  | FileNotFoundError
  | UnpicklingError
  | OSError
  | APIError
  | KeyError
  | IndexError
  | ValueError.

#[global] Instance exn_eq_dec : EqDecision exn.
Proof. solve_decision. Defined.

Inductive result (A : Type) : Type :=
  | Ok (a : A)
  | Raise (e : exn).
Arguments Ok {A} a.
Arguments Raise {A} e.

Definition rbind {A B} (r : result A) (k : A -> result B) : result B :=
  match r with
  | Ok a => k a
  | Raise e => Raise e
  end.

Notation "'let?' x ':=' c 'in' k" := (rbind c (fun x => k))
  (at level 10, x pattern, c at level 100, k at level 200).

(** [l[i]] for a Python list or numpy array: a negative index counts from
    the end, anything out of range raises IndexError. *)
Definition py_index {A} (l : list A) (i : Z) : result A :=
  let j := if (i <? 0)%Z then (i + Z.of_nat (length l))%Z else i in
  if (j <? 0)%Z then Raise IndexError
  else match l !! Z.to_nat j with
       | Some x => Ok x
       | None => Raise IndexError
       end.

(* ===================================================================== *)
(** ** Cosine similarity on float64 vectors *)
(* ===================================================================== *)

Definition Embedding : Type := list float.

(** [np.dot] of two 1-D sequences: the sum of the products, ValueError
    when the shapes differ. Here every product is rounded and the products
    are added left to right, each sum rounded. numpy hands the sum to BLAS,
    which may fuse a product with the addition and keep several partial
    sums: where a product or a partial sum is inexact the code's result can
    differ from this one in the last bits. The statements below are either
    relative to the scores, whatever their bits, or evaluated on vectors
    whose products and sums are exact. *)
Definition np_dot (a b : Embedding) : result float :=
  if length a =? length b
  then Ok (fold_left (fun acc xy => (acc + xy.1 * xy.2)%float) (combine a b) 0%float)
  else Raise ValueError.

(** [np.linalg.norm] of a 1-D sequence: [sqrt(x.dot(x))], with the sum of
    the squares taken as in [np_dot] (and the same reservation about its
    last bits). *)
Definition np_linalg_norm (a : Embedding) : float :=
  PrimFloat.sqrt (fold_left (fun acc x => (acc + x * x)%float) a 0%float).

Definition cosine_similarity (embedding1 embedding2 : Embedding) : result float :=
  let? d := np_dot embedding1 embedding2 in
  Ok (d / (np_linalg_norm embedding1 * np_linalg_norm embedding2))%float.

(** The list comprehension: one score per embedding, in order; the first
    exception aborts it. *)
Fixpoint distances_from_embeddings
    (query_embedding : Embedding) (embeddings : list Embedding) : result (list float) :=
  match embeddings with
  | [] => Ok []
  | embedding :: rest =>
      let? d := cosine_similarity query_embedding embedding in
      let? ds := distances_from_embeddings query_embedding rest in
      Ok (d :: ds)
  end.

(* ===================================================================== *)
(** ** Python's [sorted(iterable, key=...)] *)
(* ===================================================================== *)

(** [sorted] computes every key once, then sorts the (key, item) pairs
    with [<] on the keys as its only comparison, stably. It is modelled by
    a stable insertion sort: the items are taken left to right and each one
    is put before the first item already placed that it is smaller than.
    On keys that [<] orders totally (for floats: no NaN) every stable sort
    returns this list, CPython's among them. With a NaN key [<] is not an
    order and CPython's run detection and binary insertion can leave the
    items in another order than this insertion: what is stated about the
    order of a ranking is stated for scores without NaN, and the NaN
    examples use two items, where both proceed alike. *)
Section PySorted.
Context {A K : Type}.
Variable lt : K -> K -> bool.

Fixpoint insert_keyed (x : K * A) (l : list (K * A)) : list (K * A) :=
  match l with
  | [] => [x]
  | y :: l' => if lt x.1 y.1 then x :: y :: l' else y :: insert_keyed x l'
  end.

Definition sort_keyed (l : list (K * A)) : list (K * A) :=
  fold_left (fun acc x => insert_keyed x acc) l [].

Definition sorted (key : A -> K) (l : list A) : list A :=
  (sort_keyed ((fun x => (key x, x)) <$> l)).*2.
End PySorted.

(** [range(n)] *)
Definition range (n : nat) : list nat := seq 0 n.

(** [distances[i]] inside the sort key; [i] always comes from
    [range(len(distances))], so the default is never returned. *)
Definition distance_at (distances : list float) (i : nat) : float :=
  nth i distances nan.

(** [sorted(range(len(distances)), key=lambda i: distances[i])[::-1]] *)
Definition indices_of_closest_matches_from_distances (distances : list float) : list nat :=
  reverse (sorted PrimFloat.ltb (distance_at distances) (range (length distances))).

(** The three lines of [print_recommendations_from_strings] that turn the
    embeddings and the query index into scores and a ranking (the spec's
    [rank]). *)
Definition rank (embeddings : list Embedding) (index_of_source_string : Z)
    : result (list float * list nat) :=
  let? query_embedding := py_index embeddings index_of_source_string in
  let? distances := distances_from_embeddings query_embedding embeddings in
  Ok (distances, indices_of_closest_matches_from_distances distances).

(* ===================================================================== *)
(** ** The world the notebook runs in *)
(* ===================================================================== *)

(** What the file at [embedding_cache_path] holds: nothing, bytes that do
    not unpickle, or a pickled dict. *)
Inductive File : Type :=
  | Absent
  | Corrupt
  | Pickled (contents : gmap (string * string) Embedding).

(** How [open(path, "wb")] followed by [pickle.dump] can end: the file
    is rewritten; [open] raises and the file is left as it was; or [open]
    has truncated the file and the dump raises before completing. *)
Inductive write_outcome : Set :=
  | Written
  | OpenFails
  | DumpFails.

(** One execution of the [print] statement of the recommendation loop:
    the counter, the requested k, the recommended string and its score.
    [rec_index] is the loop variable [i] at that point; it is not part of
    the printed text. *)
Record Recommendation : Type := mkRecommendation {
  rec_number : Z;
  rec_of : Z;
  rec_index : nat;
  rec_string : string;
  rec_distance : float
}.

Record World : Type := mkWorld {
  (** the module-level dict [embedding_cache] *)
  embedding_cache : gmap (string * string) Embedding;
  (** the file at [embedding_cache_path] *)
  cache_file : File;
  (** every call of [get_embedding] so far, oldest first, with its outcome *)
  api_log : list (string * string * result Embedding);
  (** number of attempts to write the cache file so far *)
  writes : nat;
  (** what the recommendation loop has printed so far, oldest first *)
  stdout : list Recommendation
}.

Definition with_cache (c : gmap (string * string) Embedding) (w : World) : World :=
  mkWorld c (cache_file w) (api_log w) (writes w) (stdout w).
Definition with_file (f : File) (w : World) : World :=
  mkWorld (embedding_cache w) f (api_log w) (writes w) (stdout w).
Definition with_api_log (l : list (string * string * result Embedding)) (w : World) : World :=
  mkWorld (embedding_cache w) (cache_file w) l (writes w) (stdout w).
Definition with_writes (n : nat) (w : World) : World :=
  mkWorld (embedding_cache w) (cache_file w) (api_log w) n (stdout w).
Definition with_stdout (o : list Recommendation) (w : World) : World :=
  mkWorld (embedding_cache w) (cache_file w) (api_log w) (writes w) o.

(** A statement: it ends with a value or an exception, and in both cases
    leaves a world behind (what it changed before raising stays changed). *)
Definition M (A : Type) : Type := World -> result A * World.

Definition ret {A} (a : A) : M A := fun w => (Ok a, w).
Definition raise {A} (e : exn) : M A := fun w => (Raise e, w).
Definition lift {A} (r : result A) : M A := fun w => (r, w).
Definition bind {A B} (c : M A) (k : A -> M B) : M B :=
  fun w => match c w with
           | (Ok a, w') => k a w'
           | (Raise e, w') => (Raise e, w')
           end.

Notation "'let*' x ':=' c 'in' k" := (bind c (fun x => k))
  (at level 10, x pattern, c at level 100, k at level 200).

(** [try: c except e: h] *)
Definition try_except {A} (c : M A) (e : exn) (h : M A) : M A :=
  fun w => match c w with
           | (Raise e', w') => if decide (e' = e) then h w' else (Raise e', w')
           | r => r
           end.

Fixpoint mapM {A B} (f : A -> M B) (l : list A) : M (list B) :=
  match l with
  | [] => ret []
  | x :: l' => let* y := f x in let* ys := mapM f l' in ret (y :: ys)
  end.

(* ===================================================================== *)
(** ** The embedding cache *)
(* ===================================================================== *)

(** The calls a notebook session makes on the cache. *)
Inductive operation : Type :=
  | Lookup (text model : string)
  | Recommend (strings : list string) (index_of_source_string : Z)
              (k_nearest_neighbors : Z) (model : string).

Section Cache.
(** The embedding provider behind [get_embedding]: its answer to the
    [n]-th call (counting from 0) for a text and a model. It may raise,
    and it need not answer the same text the same way twice. *)
Variable provider : nat -> string -> string -> result Embedding.
(** How the [n]-th attempt to write the cache file ends. *)
Variable file_system : nat -> write_outcome.

Definition get_embedding (text model : string) : M Embedding :=
  fun w =>
    let r := provider (length (api_log w)) text model in
    (r, with_api_log (api_log w ++ [(text, model, r)]) w).

(** [pd.read_pickle(embedding_cache_path)] *)
Definition read_pickle : M (gmap (string * string) Embedding) :=
  fun w => match cache_file w with
           | Absent => (Raise FileNotFoundError, w)
           | Corrupt => (Raise UnpicklingError, w)
           | Pickled c => (Ok c, w)
           end.

(** [with open(embedding_cache_path, "wb") as f: pickle.dump(embedding_cache, f)] *)
Definition pickle_dump : M unit :=
  fun w =>
    let w' := with_writes (S (writes w)) w in
    match file_system (writes w) with
    | Written => (Ok tt, with_file (Pickled (embedding_cache w)) w')
    | OpenFails => (Raise OSError, w')
    | DumpFails => (Raise OSError, with_file Corrupt w')
    end.

Definition assign_cache (c : gmap (string * string) Embedding) : M unit :=
  fun w => (Ok tt, with_cache c w).

(** The cell that sets the cache up:
<<
    try:
        embedding_cache = pd.read_pickle(embedding_cache_path)
    except FileNotFoundError:
        embedding_cache = {}
    with open(embedding_cache_path, "wb") as embedding_cache_file:
        pickle.dump(embedding_cache, embedding_cache_file)
>> *)
Definition load_embedding_cache : M unit :=
  let* _ := try_except (let* c := read_pickle in assign_cache c)
                       FileNotFoundError
                       (assign_cache ∅) in
  pickle_dump.

(** [(string, model) not in embedding_cache.keys()] *)
Definition cache_misses (key : string * string) : M bool :=
  fun w => (Ok (bool_decide (embedding_cache w !! key = None)), w).

(** [embedding_cache[key] = v] *)
Definition cache_store (key : string * string) (v : Embedding) : M unit :=
  fun w => (Ok tt, with_cache (<[key := v]> (embedding_cache w)) w).

(** [embedding_cache[key]] *)
Definition cache_fetch (key : string * string) : M Embedding :=
  fun w => match embedding_cache w !! key with
           | Some v => (Ok v, w)
           | None => (Raise KeyError, w)
           end.

(** 
<<
    if (string, model) not in embedding_cache.keys():
        embedding_cache[(string, model)] = get_embedding(string, model)
        with open(embedding_cache_path, "wb") as embedding_cache_file:
            pickle.dump(embedding_cache, embedding_cache_file)
    return embedding_cache[(string, model)]
>> *)
Definition embedding_from_string (text model : string) : M Embedding :=
  let* miss := cache_misses (text, model) in
  let* _ := (if miss : bool
             then let* v := get_embedding text model in
                  let* _ := cache_store (text, model) v in
                  pickle_dump
             else ret tt) in
  cache_fetch (text, model).

(* =================================================================== *)
(** ** Recommendations *)
(* =================================================================== *)

Definition print (r : Recommendation) : M unit :=
  fun w => (Ok tt, with_stdout (stdout w ++ [r]) w).

(** The [for i in indices_of_nearest_neighbors] loop, from a given value
    of [k_counter]. *)
Fixpoint recommendation_loop (strings : list string) (distances : list float)
    (query_string : string) (k_nearest_neighbors k_counter : Z)
    (indices : list nat) : M unit :=
  match indices with
  | [] => ret tt
  | i :: rest =>
      let* s := lift (py_index strings (Z.of_nat i)) in
      if decide (query_string = s)
      then recommendation_loop strings distances query_string
             k_nearest_neighbors k_counter rest
      else if (k_counter >=? k_nearest_neighbors)%Z
      then ret tt
      else
        let k_counter := (k_counter + 1)%Z in
        let* s' := lift (py_index strings (Z.of_nat i)) in
        let* d := lift (py_index distances (Z.of_nat i)) in
        let* _ := print (mkRecommendation k_counter k_nearest_neighbors i s' d) in
        recommendation_loop strings distances query_string
          k_nearest_neighbors k_counter rest
  end.

Definition print_recommendations_from_strings
    (strings : list string) (index_of_source_string : Z)
    (k_nearest_neighbors : Z) (model : string) : M (list nat) :=
  let* embeddings := mapM (fun s => embedding_from_string s model) strings in
  let* query_embedding := lift (py_index embeddings index_of_source_string) in
  let* distances := lift (distances_from_embeddings query_embedding embeddings) in
  let indices_of_nearest_neighbors :=
    indices_of_closest_matches_from_distances distances in
  let* query_string := lift (py_index strings index_of_source_string) in
  let* _ := recommendation_loop strings distances query_string
              k_nearest_neighbors 0 indices_of_nearest_neighbors in
  ret indices_of_nearest_neighbors.

(** A session: calls of the two functions one after the other; the
    result of each is dropped (an exception ends that call only, the
    notebook goes on with the next cell). *)
Definition perform (op : operation) (w : World) : World :=
  match op with
  | Lookup text model => (embedding_from_string text model w).2
  | Recommend strings index k model =>
      (print_recommendations_from_strings strings index k model w).2
  end.

Definition run_session (ops : list operation) (w : World) : World :=
  fold_left (fun w op => perform op w) ops w.
End Cache.

(** A kernel that has run nothing yet, next to a given cache file. *)
Definition fresh_world (f : File) : World := mkWorld ∅ f [] 0 [].

(* ===================================================================== *)
(** ** Vocabulary of the statements *)
(* ===================================================================== *)

(** [x] occurs at an earlier position of [l] than [y]. *)
Definition appears_before {A} (x y : A) (l : list A) : Prop :=
  exists a b, a < b /\ l !! a = Some x /\ l !! b = Some y.

(** No score is NaN: [<] orders the scores totally. *)
Definition ordered_scores (distances : list float) : Prop :=
  Forall (fun d => is_nan d = false) distances.

(** The order of a descending ranking: a strictly higher score first and,
    between scores that [<] does not separate, the higher index first. *)
Definition ranked_before (distances : list float) (i j : nat) : Prop :=
  PrimFloat.ltb (distance_at distances j) (distance_at distances i) = true \/
  (PrimFloat.ltb (distance_at distances i) (distance_at distances j) = false /\ j < i).

(** All embeddings have the same number of components. *)
Definition same_dimension (embeddings : list Embedding) : Prop :=
  Forall (fun e1 => Forall (fun e2 => length e1 = length e2) embeddings) embeddings.

(** The order in which [sorted] leaves two decorated items of a range: the
    smaller key first and, between keys that [lt] does not separate, the
    smaller index first. *)
Definition keyed_before {K} (lt : K -> K -> bool) (x y : K * nat) : Prop :=
  lt x.1 y.1 = true \/ (lt y.1 x.1 = false /\ x.2 < y.2).

(** Counting in the log of provider calls: the calls made for a key, and
    those among them that returned an embedding. *)
Definition called (key : string * string)
    (c : string * string * result Embedding) : bool :=
  bool_decide (c.1 = key).

Definition answered (key : string * string)
    (c : string * string * result Embedding) : bool :=
  called key c && match c.2 with Ok _ => true | Raise _ => false end.

Definition invocations (key : string * string)
    (log : list (string * string * result Embedding)) : nat :=
  length (List.filter (called key) log).

Definition successes (key : string * string)
    (log : list (string * string * result Embedding)) : nat :=
  length (List.filter (answered key) log).

(** What any session does to the cache and to the log, from [w] to
    [w']: the log grows by [ext], every new entry records the provider's
    answer to that call, entries present in the cache stay as they are and
    cause no call, a key enters the cache only with the one answer the
    provider gave for it, and nothing else changes the cache. *)
Definition cache_evolves (provider : nat -> string -> string -> result Embedding)
    (w w' : World) (ext : list (string * string * result Embedding)) : Prop :=
  api_log w' = api_log w ++ ext /\
  (forall n t m r, ext !! n = Some (t, m, r) ->
     r = provider (length (api_log w) + n) t m) /\
  (forall key v, embedding_cache w !! key = Some v ->
     embedding_cache w' !! key = Some v /\ invocations key ext = 0) /\
  (forall key, embedding_cache w !! key = None ->
     match embedding_cache w' !! key with
     | Some v => successes key ext = 1 /\ (key, Ok v) ∈ ext
     | None => successes key ext = 0
     end).

(** Whether the loop prints index [i]'s string: it differs from the
    query's. *)
Definition qualifying (strings : list string) (query_string : string) (i : nat) : Prop :=
  strings !! i <> Some query_string.

#[global] Instance qualifying_dec strings query_string i :
  Decision (qualifying strings query_string i).
Proof. unfold qualifying. apply _. Defined.

(** The indices the loop prints for: the first [k] qualifying ones, in
    ranking order. *)
Definition recommended (strings : list string) (query_string : string)
    (k : Z) (ranking : list nat) : list nat :=
  take (Z.to_nat k) (filter (qualifying strings query_string) ranking).

(** A provider that fails on the first call and answers from the second. *)
Definition flaky_provider (n : nat) (text model : string) : result Embedding :=
  match n with
  | 0 => Raise APIError
  | S _ => Ok [1%float; 0%float]
  end.

(** A provider that always answers, by the text alone. *)
Definition toy_provider (n : nat) (text model : string) : result Embedding :=
  if decide (text = "A"%string) then Ok [1%float; 0%float] else Ok [0%float; 1%float].

Definition disk_ok (n : nat) : write_outcome := Written.
Definition disk_full (n : nat) : write_outcome := DumpFails.

(** A non-NaN binary64 value as a triple of integers whose lexicographic
    order is the order [SFcompare] gives the values: its class (-inf, negative, zero,
    positive, +inf), then exponent and mantissa, both negated for negative
    values. *)
Definition float_code (x : spec_float) : Z * Z * Z :=
  match x with
  | S754_zero _ => (0, 0, 0)%Z
  | S754_infinity true => (-2, 0, 0)%Z
  | S754_infinity false => (2, 0, 0)%Z
  | S754_nan => (0, 0, 0)%Z
  | S754_finite false m e => (1, e, Zpos m)%Z
  | S754_finite true m e => (-1, - e, Zneg m)%Z
  end.

Definition lex_lt (a b : Z * Z * Z) : Prop :=
  (a.1.1 < b.1.1 \/
   (a.1.1 = b.1.1 /\ (a.1.2 < b.1.2 \/ (a.1.2 = b.1.2 /\ a.2 < b.2))))%Z.

(* ===================================================================== *)
(** ** Text cleaning and the text column *)
(* ===================================================================== *)

(** A Python string as the list of its code points. The character classes
    of the [regex] module ([\s], [\w], [\d]) and the whitespace that
    [str.strip] removes are parameters: the cleaning is modelled for
    whatever these classes contain. *)
Section CleanText.
Variable is_space : Z -> bool.
Variable is_word : Z -> bool.
Variable is_digit : Z -> bool.
Variable is_strip_space : Z -> bool.

(** [re.sub] for a pattern that matches exactly one character of a class:
    every such character is replaced by [repl]. *)
Fixpoint sub_char (p : Z -> bool) (repl : list Z) (text : list Z) : list Z :=
  match text with
  | [] => []
  | c :: rest => (if p c then repl else [c]) ++ sub_char p repl rest
  end.

(** [re.sub] for [p+]: every maximal run of characters of the class is
    replaced by one [repl]. [in_run] tells that the character before was
    of the class, i.e. that the current run is already replaced. *)
Fixpoint sub_runs (p : Z -> bool) (repl : list Z) (in_run : bool) (text : list Z)
    : list Z :=
  match text with
  | [] => []
  | c :: rest =>
      if p c
      then (if in_run then [] else repl) ++ sub_runs p repl true rest
      else c :: sub_runs p repl false rest
  end.

Fixpoint lstrip (p : Z -> bool) (text : list Z) : list Z :=
  match text with
  | [] => []
  | c :: rest => if p c then lstrip p rest else c :: rest
  end.

(** [text.strip()] *)
Definition strip (p : Z -> bool) (text : list Z) : list Z :=
  reverse (lstrip p (reverse (lstrip p text))).

(**
<<
    def clean_text(text):
        text = re.sub(r"\n", " ", text)
        text = re.sub(r"\&", " and ", text)
        text = re.sub(r"\|", " ", text)
        text = re.sub(r"\s+", " ", text)
        # Eliminate all punctuation
        text = re.sub(r"[^\w\d\s]", "", text)
        return text.strip()
>>
    10 is the newline, 32 the space, 38 the ampersand, 124 the bar and
    97, 110, 100 are a, n, d. *)
Definition clean_text (text : list Z) : list Z :=
  let text := sub_char (Z.eqb 10) [32%Z] text in
  let text := sub_char (Z.eqb 38) [32; 97; 110; 100; 32]%Z text in
  let text := sub_char (Z.eqb 124) [32%Z] text in
  let text := sub_runs is_space [32%Z] false text in
  let text := sub_char (fun c => negb (is_word c || is_digit c || is_space c)) [] text in
  strip is_strip_space text.

(** [df["headline"].apply(clean_text)], the same for the descriptions, and
    [df["text"] = df["headline"] + " " + df["short_description"]] on the
    rows of the frame. *)
Definition text_column (headline short_description : list (list Z)) : list (list Z) :=
  zip_with (fun h d => h ++ [32%Z] ++ d)
           (clean_text <$> headline) (clean_text <$> short_description).
End CleanText.

(** The classes on ASCII code points, for running the cleaning on ASCII
    text: [\s] is tab to carriage return and the space, [\w] the letters,
    the digits and the underscore, and [str.strip] also removes the four
    separators 28 to 31. *)
Definition ascii_space (c : Z) : bool :=
  ((9 <=? c) && (c <=? 13) || (c =? 32))%Z.
Definition ascii_digit (c : Z) : bool := ((48 <=? c) && (c <=? 57))%Z.
Definition ascii_word (c : Z) : bool :=
  ((65 <=? c) && (c <=? 90) || (97 <=? c) && (c <=? 122) || ascii_digit c || (c =? 95))%Z.
Definition ascii_strip_space (c : Z) : bool :=
  (ascii_space c || (28 <=? c) && (c <=? 31))%Z.

(** A character that survives the cleaning: of [\w] or [\d], or the
    space. *)
Definition clean_char (is_word is_digit : Z -> bool) (c : Z) : Prop :=
  is_word c || is_digit c = true \/ c = 32%Z.

(* ===================================================================== *)
(** ** Vocabulary of the further statements *)
(* ===================================================================== *)

(** The file holds exactly the dict. *)
Definition in_sync (w : World) : Prop :=
  cache_file w = Pickled (embedding_cache w).

(** Whatever the file holds is in the dict, with the same embedding. *)
Definition file_consistent (w : World) : Prop :=
  match cache_file w with
  | Pickled c => c ⊆ embedding_cache w
  | _ => True
  end.

(** A new kernel next to the file the old one leaves behind. *)
Definition restart (w : World) : World := fresh_world (cache_file w).

(** The calls in a log that returned an embedding. *)
Definition answers (log : list (string * string * result Embedding)) : nat :=
  length (List.filter (fun c => match c.2 with Ok _ => true | Raise _ => false end) log).

(* ===================================================================== *)
(** ** Kernels and restarts *)
(* ===================================================================== *)




Section Lifetime.
Variable provider : nat -> string -> string -> result Embedding.
Variable file_system : nat -> write_outcome.



End Lifetime.

(** A disk on which the second write (counting from the first, number 0)
    cannot open the file, and every other write succeeds. *)
Definition disk_fails_second (n : nat) : write_outcome :=
  match n with
  | 1 => OpenFails
  | _ => Written
  end.

(** A provider that answers the text Z with the zero vector. *)
Definition zero_provider (n : nat) (text model : string) : result Embedding :=
  if decide (text = "Z"%string) then Ok [0%float; 0%float] else Ok [1%float; 0%float].

(* ===================================================================== *)
(** * Properties *)
(* ===================================================================== *)

(** ** Order of float64 values under [<] *)

Lemma SFltb_lex (x y : spec_float) :
  x <> S754_nan -> y <> S754_nan ->
  SFltb x y = true <-> lex_lt (float_code x) (float_code y).
Proof.
  intros Hx Hy. unfold SFltb, lex_lt.
  destruct x as [[]|[]| |[] m1 e1], y as [[]|[]| |[] m2 e2];
    try congruence; cbn; try (split; [intros; lia | intros; (reflexivity || (exfalso; lia))]);
    try (split; [congruence | intros; exfalso; lia]).
  - destruct (Z.compare_spec e1 e2) as [He|He|He]; cbn.
    + rewrite Pos.compare_cont_spec; cbn.
      destruct (Pos.compare_spec m1 m2); cbn; split; try congruence; try lia; reflexivity.
    + split; [congruence | lia].
    + split; [lia | reflexivity].
  - destruct (Z.compare_spec e1 e2) as [He|He|He]; cbn.
    + rewrite Pos.compare_cont_spec; cbn.
      destruct (Pos.compare_spec m1 m2); cbn; split; try congruence; try lia; reflexivity.
    + split; [lia | reflexivity].
    + split; [congruence | lia].
Qed.

Lemma SFleb_negb_SFltb (x y : spec_float) :
  x <> S754_nan -> y <> S754_nan -> SFleb y x = negb (SFltb x y).
Proof.
  intros Hx Hy. unfold SFleb, SFltb.
  destruct x as [[]|[]| |[] m1 e1], y as [[]|[]| |[] m2 e2];
    try congruence; cbn; try reflexivity.
  - rewrite (Z.compare_antisym e1 e2).
    destruct (e1 ?= e2)%Z; cbn; try reflexivity.
    rewrite !Pos.compare_cont_spec, (Pos.compare_antisym m1 m2); cbn.
    destruct (m1 ?= m2)%positive; reflexivity.
  - rewrite (Z.compare_antisym e1 e2).
    destruct (e1 ?= e2)%Z; cbn; try reflexivity.
    rewrite !Pos.compare_cont_spec, (Pos.compare_antisym m1 m2); cbn.
    destruct (m1 ?= m2)%positive; reflexivity.
Qed.

Lemma SFeqb_SFltb (x y : spec_float) : SFeqb x y = true -> SFltb x y = false.
Proof. unfold SFeqb, SFltb. destruct (SFcompare x y) as [[]|]; congruence. Qed.

Lemma SFeqb_refl (x : spec_float) : x <> S754_nan -> SFeqb x x = true.
Proof.
  intros Hx. unfold SFeqb.
  destruct x as [[]|[]| |[] m e]; try congruence; cbn; try reflexivity;
    rewrite Z.compare_refl, Pos.compare_cont_spec, Pos.compare_refl; reflexivity.
Qed.

Lemma is_nan_Prim2SF (x : float) : is_nan x = false <-> Prim2SF x <> S754_nan.
Proof.
  unfold is_nan. rewrite FloatAxioms.eqb_spec. split.
  - intros H E. rewrite E in H. discriminate.
  - intros H. rewrite SFeqb_refl by assumption. reflexivity.
Qed.

Lemma ltb_not_nan (x y : float) :
  PrimFloat.ltb x y = true -> is_nan x = false /\ is_nan y = false.
Proof.
  rewrite FloatAxioms.ltb_spec, !is_nan_Prim2SF. unfold SFltb.
  destruct (Prim2SF x), (Prim2SF y); cbn; try discriminate; split; congruence.
Qed.

Lemma eqb_not_nan (x y : float) :
  PrimFloat.eqb x y = true -> is_nan x = false /\ is_nan y = false.
Proof.
  rewrite FloatAxioms.eqb_spec, !is_nan_Prim2SF. unfold SFeqb.
  destruct (Prim2SF x), (Prim2SF y); cbn; try discriminate; split; congruence.
Qed.

Lemma ltb_asym (x y : float) : PrimFloat.ltb x y = true -> PrimFloat.ltb y x = false.
Proof.
  intros H. destruct (ltb_not_nan _ _ H) as [Hx Hy]. revert H.
  apply is_nan_Prim2SF in Hx, Hy. rewrite !FloatAxioms.ltb_spec. intros H.
  apply SFltb_lex in H; try assumption.
  destruct (SFltb (Prim2SF y) (Prim2SF x)) eqn:E; [|reflexivity].
  apply SFltb_lex in E; try assumption. unfold lex_lt in *. lia.
Qed.

Lemma ltb_negtrans (x y z : float) :
  is_nan y = false ->
  PrimFloat.ltb x z = true -> PrimFloat.ltb x y = true \/ PrimFloat.ltb y z = true.
Proof.
  intros Hy H. destruct (ltb_not_nan _ _ H) as [Hx Hz]. revert H.
  apply is_nan_Prim2SF in Hx, Hy, Hz. rewrite !FloatAxioms.ltb_spec, !SFltb_lex by assumption.
  unfold lex_lt. lia.
Qed.

Lemma eqb_ltb (x y : float) : PrimFloat.eqb x y = true -> PrimFloat.ltb x y = false.
Proof. rewrite FloatAxioms.eqb_spec, FloatAxioms.ltb_spec. apply SFeqb_SFltb. Qed.

Lemma eqb_sym (x y : float) : PrimFloat.eqb x y = true -> PrimFloat.eqb y x = true.
Proof.
  intros H. destruct (eqb_not_nan _ _ H) as [Hx Hy]. revert H.
  apply is_nan_Prim2SF in Hx, Hy. rewrite !FloatAxioms.eqb_spec. unfold SFeqb.
  destruct (Prim2SF x) as [[]|[]| |[] m1 e1], (Prim2SF y) as [[]|[]| |[] m2 e2];
    try congruence; cbn; try discriminate; try reflexivity.
  - rewrite (Z.compare_antisym e1 e2).
    destruct (e1 ?= e2)%Z; cbn; try discriminate.
    rewrite !Pos.compare_cont_spec, (Pos.compare_antisym m1 m2); cbn.
    destruct (m1 ?= m2)%positive; cbn; congruence.
  - rewrite (Z.compare_antisym e1 e2).
    destruct (e1 ?= e2)%Z; cbn; try discriminate.
    rewrite !Pos.compare_cont_spec, (Pos.compare_antisym m1 m2); cbn.
    destruct (m1 ?= m2)%positive; cbn; congruence.
Qed.

Lemma leb_negb_ltb (x y : float) :
  is_nan x = false -> is_nan y = false ->
  PrimFloat.leb y x = negb (PrimFloat.ltb x y).
Proof.
  rewrite !is_nan_Prim2SF, FloatAxioms.leb_spec, FloatAxioms.ltb_spec. apply SFleb_negb_SFltb.
Qed.

(** ** [sorted]: a permutation, ordered, stable *)

Section PySortedFacts.
Context {A K : Type} (lt : K -> K -> bool).

Lemma insert_keyed_perm (x : K * A) (l : list (K * A)) :
  insert_keyed lt x l ≡ₚ x :: l.
Proof.
  induction l as [|y l IH]; cbn; [done|].
  destruct (lt x.1 y.1); [done|].
  rewrite IH. apply Permutation_swap.
Qed.

Lemma fold_insert_keyed_perm (l acc : list (K * A)) :
  fold_left (fun acc x => insert_keyed lt x acc) l acc ≡ₚ acc ++ l.
Proof.
  revert acc. induction l as [|x l IH]; intros acc; cbn.
  - by rewrite app_nil_r.
  - rewrite IH, insert_keyed_perm. cbn. apply Permutation_middle.
Qed.

Lemma sort_keyed_perm (l : list (K * A)) : sort_keyed lt l ≡ₚ l.
Proof. unfold sort_keyed. by rewrite fold_insert_keyed_perm. Qed.

Lemma sorted_perm (key : A -> K) (l : list A) : sorted lt key l ≡ₚ l.
Proof.
  unfold sorted. rewrite sort_keyed_perm, <- list_fmap_compose.
  induction l as [|x l IH]; cbn; [done|]. by constructor.
Qed.
End PySortedFacts.

Section PySortedOrder.
Context {K : Type} (lt : K -> K -> bool) (key : nat -> K).
(** The keys on which [lt] is a strict weak order. *)
Variable P : K -> Prop.
Hypothesis lt_asym : forall x y, lt x y = true -> lt y x = false.
Hypothesis lt_negtrans :
  forall x y z, P y -> lt x z = true -> lt x y = true \/ lt y z = true.

Lemma insert_keyed_sorted (x : K * nat) (l : list (K * nat)) :
  Forall (fun y => P y.1 /\ y.2 < x.2) l ->
  StronglySorted (keyed_before lt) l ->
  StronglySorted (keyed_before lt) (insert_keyed lt x l).
Proof.
  induction l as [|y l IH]; cbn; intros Hl Hs.
  - repeat constructor.
  - apply Forall_cons in Hl as [[HPy Hyx] Hl].
    apply StronglySorted_cons in Hs as [Hy Hs].
    destruct (lt x.1 y.1) eqn:Hxy.
    + constructor; [by constructor|].
      constructor; [by left|].
      rewrite Forall_forall in Hy, Hl |- *. intros z Hz.
      left. destruct (lt_negtrans x.1 z.1 y.1 (proj1 (Hl z Hz)) Hxy) as [|Hzy]; [done|].
      destruct (Hy z Hz) as [Hyz|[Hyz _]]; [apply lt_asym in Hyz|]; congruence.
    + constructor; [by apply IH|].
      rewrite insert_keyed_perm. constructor; [|done].
      right. done.
Qed.

Lemma fold_insert_keyed_sorted (n a : nat) (acc : list (K * nat)) :
  (forall i, a <= i < a + n -> P (key i)) ->
  Forall (fun y => P y.1 /\ y.2 < a) acc ->
  StronglySorted (keyed_before lt) acc ->
  StronglySorted (keyed_before lt)
    (fold_left (fun acc x => insert_keyed lt x acc)
               ((fun i => (key i, i)) <$> seq a n) acc).
Proof.
  revert a acc. induction n as [|n IH]; intros a acc HP Hacc Hs; cbn; [done|].
  apply IH.
  - intros i Hi. apply HP. lia.
  - rewrite insert_keyed_perm. constructor; cbn.
    + split; [apply HP|]; lia.
    + eapply Forall_impl; [exact Hacc|]. cbn. intros y [? ?]. split; [done|lia].
  - by apply insert_keyed_sorted.
Qed.

Lemma StronglySorted_undecorate (l : list (K * nat)) :
  Forall (fun p => p.1 = key p.2) l ->
  StronglySorted (keyed_before lt) l ->
  StronglySorted (fun i j => keyed_before lt (key i, i) (key j, j)) (l.*2).
Proof.
  induction l as [|[k i] l IH]; cbn; intros Hl Hs; [constructor|].
  apply Forall_cons in Hl as [Hk Hl]. cbn in Hk. subst k.
  apply StronglySorted_cons in Hs as [Hx Hs].
  constructor; [by apply IH|].
  rewrite Forall_fmap. rewrite Forall_forall in Hx, Hl |- *.
  intros [k j] Hj. cbn. specialize (Hl _ Hj). cbn in Hl. subst k. by apply Hx.
Qed.

(** On a range whose keys [lt] orders, [sorted] is ascending in the
    keys and keeps the index order between keys that [lt] does not
    separate. *)
Lemma sorted_range_sorted (n : nat) :
  (forall i, i < n -> P (key i)) ->
  StronglySorted (fun i j => keyed_before lt (key i, i) (key j, j))
                 (sorted lt key (seq 0 n)).
Proof.
  intros HP. unfold sorted. apply StronglySorted_undecorate.
  - rewrite sort_keyed_perm, Forall_fmap. by apply Forall_true.
  - apply fold_insert_keyed_sorted; [|constructor|constructor].
    intros i Hi. apply HP. lia.
Qed.

(** Any list that holds the range and is in that order is the one
    [sorted] returns: on such keys the result does not depend on which
    stable sorting algorithm produced it. *)
Lemma sorted_range_unique (n : nat) (l : list nat) :
  (forall i, i < n -> P (key i)) ->
  l ≡ₚ seq 0 n ->
  StronglySorted (fun i j => keyed_before lt (key i, i) (key j, j)) l ->
  l = sorted lt key (seq 0 n).
Proof.
  intros HP Hperm Hs.
  apply (StronglySorted_unique_strong
           (fun i j => keyed_before lt (key i, i) (key j, j))); [|done| |].
  - intros i j _ _ [Hij|[Hij Hlt]] [Hji|[Hji Hlt']]; cbn in *.
    + apply lt_asym in Hij. congruence.
    + congruence.
    + congruence.
    + lia.
  - by apply sorted_range_sorted.
  - by rewrite Hperm, sorted_perm.
Qed.
End PySortedOrder.

Lemma StronglySorted_reverse {A} (R : A -> A -> Prop) (l : list A) :
  StronglySorted R l -> StronglySorted (flip R) (reverse l).
Proof.
  induction 1 as [|x l Hs IH Hx]; [constructor|].
  rewrite reverse_cons. apply StronglySorted_app. split_and!.
  - intros y z Hy Hz. apply list_elem_of_singleton in Hz as ->.
    rewrite elem_of_reverse in Hy. rewrite Forall_forall in Hx. unfold flip. by apply Hx.
  - done.
  - repeat constructor.
Qed.

Lemma StronglySorted_lookup {A} (R : A -> A -> Prop) (l : list A) a b x y :
  StronglySorted R l -> a < b -> l !! a = Some x -> l !! b = Some y -> R x y.
Proof.
  intros Hs. revert a b. induction Hs as [|z l Hs IH Hz]; intros a b Hab Ha Hb; [done|].
  destruct b as [|b]; [lia|]. cbn in Hb.
  destruct a as [|a]; cbn in Ha.
  - injection Ha as ->. rewrite Forall_forall in Hz. apply Hz.
    by eapply list_elem_of_lookup_2.
  - apply (IH a b); [lia|done..].
Qed.

(** ** Division by a zero norm *)

Lemma Prim2SF_zero : Prim2SF 0%float = S754_zero false.
Proof. reflexivity. Qed.

Lemma Prim2SF_infinity : Prim2SF infinity = S754_infinity false.
Proof. reflexivity. Qed.

Lemma is_zero_Prim2SF (x : float) :
  is_zero x = true -> exists s, Prim2SF x = S754_zero s.
Proof.
  unfold is_zero. rewrite FloatAxioms.eqb_spec. change zero with 0%float.
  rewrite Prim2SF_zero. unfold SFeqb.
  destruct (Prim2SF x) as [s|[]| |[] m e]; cbn; try discriminate. by exists s.
Qed.

Lemma nan_or_infinity_Prim2SF (x : float) :
  Prim2SF x = S754_nan \/ (exists s, Prim2SF x = S754_infinity s) ->
  is_nan x || is_infinity x = true.
Proof.
  intros [H|[s H]]; apply orb_true_iff; [left|right].
  - unfold is_nan. by rewrite FloatAxioms.eqb_spec, H.
  - unfold is_infinity. by rewrite FloatAxioms.eqb_spec, abs_spec, H, Prim2SF_infinity.
Qed.

(** A quotient whose denominator is a product with a zero factor is NaN
    or infinite. *)
Lemma div_zero_norm (d n1 n2 : float) :
  is_zero n1 = true \/ is_zero n2 = true ->
  is_nan (d / (n1 * n2)) || is_infinity (d / (n1 * n2)) = true.
Proof.
  intros Hz. apply nan_or_infinity_Prim2SF.
  rewrite div_spec, mul_spec. unfold SF64div, SF64mul, SFdiv, SFmul.
  destruct Hz as [Hz|Hz]; apply is_zero_Prim2SF in Hz as [s ->].
  - destruct (Prim2SF n2) as [?|?| |? ? ?], (Prim2SF d) as [?|?| |? ? ?]; eauto.
  - destruct (Prim2SF n1) as [?|?| |? ? ?], (Prim2SF d) as [?|?| |? ? ?]; eauto.
Qed.

(** ** The similarity ranker *)

Lemma py_index_nonneg {A} (l : list A) (i : Z) :
  (0 <= i)%Z ->
  py_index l i = match l !! Z.to_nat i with Some x => Ok x | None => Raise IndexError end.
Proof.
  intros Hi. unfold py_index.
  destruct (Z.ltb_spec i 0) as [|_]; [lia|].
  destruct (Z.ltb_spec i 0); [lia|done].
Qed.

Lemma py_index_of_nat {A} (l : list A) (i : nat) (x : A) :
  l !! i = Some x -> py_index l (Z.of_nat i) = Ok x.
Proof.
  intros H. rewrite py_index_nonneg by lia. by rewrite Nat2Z.id, H.
Qed.

Lemma py_index_valid {A} (l : list A) (i : Z) :
  (0 <= i < Z.of_nat (length l))%Z ->
  exists x, l !! Z.to_nat i = Some x /\ py_index l i = Ok x.
Proof.
  intros Hi. destruct (lookup_lt_is_Some_2 l (Z.to_nat i)) as [x Hx]; [lia|].
  exists x. split; [done|]. rewrite py_index_nonneg by lia. by rewrite Hx.
Qed.

Lemma np_dot_same_length (a b : Embedding) :
  length a = length b -> exists d, np_dot a b = Ok d.
Proof.
  intros H. unfold np_dot. rewrite H, Nat.eqb_refl. eauto.
Qed.

Lemma cosine_similarity_same_length (a b : Embedding) :
  length a = length b ->
  exists d, np_dot a b = Ok d /\
            cosine_similarity a b = Ok (d / (np_linalg_norm a * np_linalg_norm b))%float.
Proof.
  intros H. destruct (np_dot_same_length a b H) as [d Hd].
  exists d. split; [done|]. unfold cosine_similarity. by rewrite Hd.
Qed.

Lemma distances_from_embeddings_total (q : Embedding) (embeddings : list Embedding) :
  (forall e, e ∈ embeddings -> length q = length e) ->
  exists ds, distances_from_embeddings q embeddings = Ok ds.
Proof.
  induction embeddings as [|e l IH]; intros H; cbn; [eauto|].
  destruct (cosine_similarity_same_length q e) as (d & _ & ->); [apply H; left|].
  destruct IH as [ds ->]; [intros e' He'; apply H; by right|].
  cbn. eauto.
Qed.

Lemma distances_from_embeddings_lookup (q : Embedding) (embeddings : list Embedding) ds :
  distances_from_embeddings q embeddings = Ok ds ->
  length ds = length embeddings /\
  forall i e, embeddings !! i = Some e ->
    exists d, cosine_similarity q e = Ok d /\ ds !! i = Some d.
Proof.
  revert ds. induction embeddings as [|e l IH]; cbn; intros ds H.
  - injection H as <-. split; [done|]. intros i e Hi. done.
  - destruct (cosine_similarity q e) as [d|] eqn:Hd; cbn in H; [|done].
    destruct (distances_from_embeddings q l) as [ds'|]; cbn in H; [|done].
    injection H as <-. destruct (IH ds' eq_refl) as [Hlen Hl].
    split; [cbn; by rewrite Hlen|].
    intros [|i] e' Hi; cbn in Hi.
    + injection Hi as <-. eauto.
    + by apply Hl.
Qed.

Lemma distance_at_lookup (ds : list float) (i : nat) (d : float) :
  ds !! i = Some d -> distance_at ds i = d.
Proof.
  unfold distance_at. revert i. induction ds as [|x ds IH]; intros [|i] H; try done.
  - by injection H.
  - cbn. by apply IH.
Qed.

Lemma ordered_scores_at (ds : list float) (i : nat) :
  ordered_scores ds -> i < length ds -> is_nan (distance_at ds i) = false.
Proof.
  intros Hds Hi. destruct (lookup_lt_is_Some_2 ds i Hi) as [d Hd].
  rewrite (distance_at_lookup _ _ _ Hd).
  unfold ordered_scores in Hds. rewrite Forall_forall in Hds.
  apply Hds. by eapply list_elem_of_lookup_2.
Qed.

Lemma ranking_perm (ds : list float) :
  indices_of_closest_matches_from_distances ds ≡ₚ seq 0 (length ds).
Proof.
  unfold indices_of_closest_matches_from_distances, range.
  by rewrite reverse_Permutation, sorted_perm.
Qed.

Lemma ranking_elem_of (ds : list float) (i : nat) :
  i ∈ indices_of_closest_matches_from_distances ds <-> i < length ds.
Proof. rewrite ranking_perm, elem_of_seq. lia. Qed.

Lemma ranking_NoDup (ds : list float) :
  NoDup (indices_of_closest_matches_from_distances ds).
Proof. rewrite ranking_perm. apply NoDup_seq. Qed.

(** On scores without NaN the ranking is descending, and between scores
    that [<] does not separate the higher index comes first. *)
Lemma ranking_sorted (ds : list float) :
  ordered_scores ds ->
  StronglySorted (ranked_before ds) (indices_of_closest_matches_from_distances ds).
Proof.
  intros Hds. unfold indices_of_closest_matches_from_distances, range.
  apply (StronglySorted_reverse
           (fun i j => keyed_before PrimFloat.ltb (distance_at ds i, i) (distance_at ds j, j))).
  apply (sorted_range_sorted PrimFloat.ltb (distance_at ds) (fun d => is_nan d = false)).
  - apply ltb_asym.
  - apply ltb_negtrans.
  - intros i Hi. by apply ordered_scores_at.
Qed.

Lemma same_dimension_elem (embeddings : list Embedding) (e1 e2 : Embedding) :
  same_dimension embeddings -> e1 ∈ embeddings -> e2 ∈ embeddings ->
  length e1 = length e2.
Proof.
  unfold same_dimension. rewrite Forall_forall. intros H H1 H2.
  specialize (H e1 H1). rewrite Forall_forall in H. by apply H.
Qed.

Lemma rank_total (embeddings : list Embedding) (q : Z) :
  (0 <= q < Z.of_nat (length embeddings))%Z ->
  same_dimension embeddings ->
  exists eq ds,
    embeddings !! Z.to_nat q = Some eq /\
    distances_from_embeddings eq embeddings = Ok ds /\
    rank embeddings q = Ok (ds, indices_of_closest_matches_from_distances ds).
Proof.
  intros Hq Hdim. destruct (py_index_valid embeddings q Hq) as (eq & Hl & Hi).
  destruct (distances_from_embeddings_total eq embeddings) as [ds Hds].
  { intros e He. eapply same_dimension_elem; [done| |done].
    by eapply list_elem_of_lookup_2. }
  exists eq, ds. split_and!; [done..|].
  unfold rank. rewrite Hi. cbn. by rewrite Hds.
Qed.

Lemma StronglySorted_impl_elem {A} (R R' : A -> A -> Prop) (l : list A) :
  (forall x y, x ∈ l -> y ∈ l -> R x y -> R' x y) ->
  StronglySorted R l -> StronglySorted R' l.
Proof.
  intros HR Hs. induction Hs as [|x l Hs IH Hx]; [constructor|].
  constructor.
  - apply IH. intros y z Hy Hz. apply HR; by right.
  - rewrite Forall_forall in Hx |- *. intros y Hy.
    apply HR; [by left|by right|by apply Hx].
Qed.

(** Without NaN the ranking is non-increasing in the scores. *)
Lemma ranking_sorted_leb (ds : list float) :
  ordered_scores ds ->
  StronglySorted
    (fun i j => PrimFloat.leb (distance_at ds j) (distance_at ds i) = true)
    (indices_of_closest_matches_from_distances ds).
Proof.
  intros Hord. eapply StronglySorted_impl_elem; [|by apply ranking_sorted].
  intros i j Hi Hj Hij. apply ranking_elem_of in Hi, Hj.
  rewrite leb_negb_ltb by (by apply ordered_scores_at).
  destruct Hij as [Hij|[-> _]]; [|done].
  by rewrite (ltb_asym _ _ Hij).
Qed.

Lemma rank_inv (embeddings : list Embedding) (q : Z) ds ranking :
  rank embeddings q = Ok (ds, ranking) ->
  exists eq, py_index embeddings q = Ok eq /\
             distances_from_embeddings eq embeddings = Ok ds /\
             ranking = indices_of_closest_matches_from_distances ds.
Proof.
  unfold rank. destruct (py_index embeddings q) as [eq|]; cbn; [|done].
  destruct (distances_from_embeddings eq embeddings) as [ds'|] eqn:Hds; cbn; [|done].
  intros [= <- <-]. eauto.
Qed.

(** *** Ties *)

(** C1, as the claim states it, fails: two equal embeddings give the two
    indices the same score, and the ranking lists index 1 before index 0. *)
Lemma tie_lower_index_first_counterexample :
  rank [[1%float]; [1%float]] 0 = Ok ([1%float; 1%float], [1; 0]) /\
  PrimFloat.eqb (distance_at [1%float; 1%float] 0) (distance_at [1%float; 1%float] 1) = true /\
  ~ appears_before 0 1 [1; 0].
Proof.
  split_and!; [reflexivity..|].
  intros (a & b & Hab & Ha & Hb).
  destruct a as [|[|a]], b as [|[|b]]; cbn in *; try discriminate; lia.
Qed.

(** C1, amended: the ranking is the reversal of a stable ascending sort,
    so of two indices with equal scores the one with the higher original
    position comes first (scores without NaN, which [<] orders). *)
Theorem tie_break_higher_index_first
    (embeddings : list Embedding) (q : Z) (ds : list float) (ranking : list nat)
    (i j : nat) :
  rank embeddings q = Ok (ds, ranking) ->
  ordered_scores ds ->
  i < j ->
  j < length ds ->
  PrimFloat.eqb (distance_at ds i) (distance_at ds j) = true ->
  appears_before j i ranking.
Proof.
  intros Hrank Hds Hij Hj Heq.
  apply rank_inv in Hrank as (_ & _ & _ & ->).
  assert (Hi' : i ∈ indices_of_closest_matches_from_distances ds)
    by (apply ranking_elem_of; lia).
  assert (Hj' : j ∈ indices_of_closest_matches_from_distances ds)
    by (by apply ranking_elem_of).
  apply list_elem_of_lookup in Hi' as [a Ha], Hj' as [b Hb].
  destruct (Nat.lt_trichotomy b a) as [Hlt|[->|Hlt]].
  - by exists b, a.
  - rewrite Ha in Hb. injection Hb as ->. lia.
  - exfalso.
    pose proof (StronglySorted_lookup _ _ _ _ _ _ (ranking_sorted ds Hds) Hlt Ha Hb)
      as [H|[_ H]]; [|lia].
    apply eqb_sym, eqb_ltb in Heq. congruence.
Qed.

Lemma tie_break_higher_index_first_witness :
  appears_before 1 0 (indices_of_closest_matches_from_distances [1%float; 1%float]).
Proof.
  apply (tie_break_higher_index_first
           [[1%float]; [1%float]] 0 [1%float; 1%float] _ 0 1).
  - reflexivity.
  - repeat constructor.
  - lia.
  - simpl. lia.
  - reflexivity.
Defined.

(** *** Order and completeness *)

(** C2, as the claim states it, fails: for the embeddings (1,1) and (3,3),
    neither of zero norm, the query (1,1) scores 2/(sqrt 2 * sqrt 2), which
    rounds below 1.0, against itself and exactly 1.0 against (3,3); the
    ranking starts with index 1, not with the query. *)
Lemma query_first_counterexample :
  Forall (fun e => is_zero (np_linalg_norm e) = false)
         [[1%float; 1%float]; [3%float; 3%float]] /\
  exists ds ranking,
    rank [[1%float; 1%float]; [3%float; 3%float]] 0 = Ok (ds, ranking) /\
    ranking !! 0 = Some 1 /\
    PrimFloat.eqb (distance_at ds 0) 1%float = false /\
    PrimFloat.ltb (distance_at ds 0) (distance_at ds 1) = true.
Proof.
  split; [repeat constructor|].
  eexists _, _. split; [vm_compute; reflexivity|]. split_and!; reflexivity.
Qed.

(** The same without any rounding: a later copy of the query's embedding
    ties with the query and is ranked before it. *)
Lemma query_first_tie_example :
  rank [[1%float; 0%float]; [1%float; 0%float]; [0%float; 1%float]] 0
    = Ok ([1%float; 1%float; 0%float], [1; 0; 2]).
Proof. reflexivity. Qed.

(** A NaN among the scores leaves the ranking unsorted: 2^600 has an
    infinite norm, its score against itself is inf/(inf*inf) = NaN, and
    the ranking puts the score 0 of index 1 before it. *)
Lemma nan_score_unsorted_example :
  exists ds ranking,
    rank [[0x1p+600%float]; [1%float]] 0 = Ok (ds, ranking) /\
    ranking = [1; 0] /\
    is_nan (distance_at ds 0) = true /\
    PrimFloat.leb (distance_at ds 0) (distance_at ds 1) = false.
Proof.
  eexists _, _. split; [vm_compute; reflexivity|]. split_and!; reflexivity.
Qed.

(** C2, amended: for embeddings of equal dimension and a valid query index
    the ranker returns one score per embedding, the cosine similarity to
    the query, and a ranking that is a permutation of all indices, the
    query's among them; when no score is NaN the ranking is sorted by
    non-increasing score. Where the query stands in it, and that its own
    score is 1.0, is not promised. *)
Theorem rank_permutation_sorted (embeddings : list Embedding) (q : Z) :
  (0 <= q < Z.of_nat (length embeddings))%Z ->
  same_dimension embeddings ->
  exists eq ds ranking,
    rank embeddings q = Ok (ds, ranking) /\
    embeddings !! Z.to_nat q = Some eq /\
    length ds = length embeddings /\
    (forall i e, embeddings !! i = Some e ->
       cosine_similarity eq e = Ok (distance_at ds i)) /\
    ranking ≡ₚ seq 0 (length embeddings) /\
    Z.to_nat q ∈ ranking /\
    (ordered_scores ds ->
     StronglySorted
       (fun i j => PrimFloat.leb (distance_at ds j) (distance_at ds i) = true)
       ranking).
Proof.
  intros Hq Hdim.
  destruct (rank_total embeddings q Hq Hdim) as (eq & ds & Heq & Hds & Hrank).
  destruct (distances_from_embeddings_lookup _ _ _ Hds) as [Hlen Hl].
  exists eq, ds, (indices_of_closest_matches_from_distances ds).
  split_and!; try done.
  - intros i e Hi. destruct (Hl i e Hi) as (d & -> & Hd).
    by rewrite (distance_at_lookup _ _ _ Hd).
  - by rewrite ranking_perm, Hlen.
  - apply ranking_elem_of. lia.
  - intros Hord. eapply StronglySorted_impl_elem; [|by apply ranking_sorted].
    intros i j Hi Hj Hij. apply ranking_elem_of in Hi, Hj.
    rewrite leb_negb_ltb by (by apply ordered_scores_at).
    destruct Hij as [Hij|[-> _]]; [|done].
    by rewrite (ltb_asym _ _ Hij).
Qed.

Lemma rank_permutation_sorted_witness :
  exists eq ds ranking,
    rank [[1%float; 0%float]; [0%float; 1%float]] 1 = Ok (ds, ranking) /\
    [[1%float; 0%float]; [0%float; 1%float]] !! Z.to_nat 1 = Some eq /\
    length ds = 2 /\
    (forall i e, [[1%float; 0%float]; [0%float; 1%float]] !! i = Some e ->
       cosine_similarity eq e = Ok (distance_at ds i)) /\
    ranking ≡ₚ seq 0 2 /\
    Z.to_nat 1 ∈ ranking /\
    (ordered_scores ds ->
     StronglySorted
       (fun i j => PrimFloat.leb (distance_at ds j) (distance_at ds i) = true)
       ranking).
Proof.
  apply (rank_permutation_sorted [[1%float; 0%float]; [0%float; 1%float]] 1).
  - simpl. lia.
  - repeat constructor.
Defined.

(** *** Zero-norm embeddings *)

(** C3, as the claim states it, fails: the ranker has no check of the
    norms and raises nothing for a zero vector; the division 0/0 gives NaN
    and the ranking is returned. *)
Lemma degenerate_vector_counterexample :
  is_zero (np_linalg_norm [0%float]) = true /\
  exists ds ranking,
    rank [[0%float]; [1%float]] 0 = Ok (ds, ranking) /\
    ranking = [1; 0] /\
    is_nan (distance_at ds 0) = true /\
    is_nan (distance_at ds 1) = true.
Proof.
  split; [reflexivity|].
  eexists _, _. split; [vm_compute; reflexivity|]. split_and!; reflexivity.
Qed.

(** C3, amended: with embeddings of equal dimension and a valid query index
    the ranker returns a ranking of all indices also when an embedding has
    zero norm; the score of every zero-norm embedding, and every score when
    it is the query that has zero norm, is then NaN or infinite. *)
Theorem degenerate_vector_scores (embeddings : list Embedding) (q : Z) :
  (0 <= q < Z.of_nat (length embeddings))%Z ->
  same_dimension embeddings ->
  exists eq ds ranking,
    rank embeddings q = Ok (ds, ranking) /\
    embeddings !! Z.to_nat q = Some eq /\
    ranking ≡ₚ seq 0 (length embeddings) /\
    forall i e, embeddings !! i = Some e ->
      is_zero (np_linalg_norm eq) = true \/ is_zero (np_linalg_norm e) = true ->
      is_nan (distance_at ds i) || is_infinity (distance_at ds i) = true.
Proof.
  intros Hq Hdim.
  destruct (rank_total embeddings q Hq Hdim) as (eq & ds & Heq & Hds & Hrank).
  destruct (distances_from_embeddings_lookup _ _ _ Hds) as [Hlen Hl].
  exists eq, ds, (indices_of_closest_matches_from_distances ds).
  split_and!; try done.
  - by rewrite ranking_perm, Hlen.
  - intros i e Hi Hz. destruct (Hl i e Hi) as (d & Hd & Hi').
    rewrite (distance_at_lookup _ _ _ Hi').
    destruct (cosine_similarity_same_length eq e) as (d' & _ & Hd').
    { eapply same_dimension_elem; [done|by eapply list_elem_of_lookup_2..]. }
    rewrite Hd' in Hd. injection Hd as <-. by apply div_zero_norm.
Qed.

Lemma degenerate_vector_scores_witness :
  exists eq ds ranking,
    rank [[0%float; 0%float]; [0%float; 1%float]] 1 = Ok (ds, ranking) /\
    [[0%float; 0%float]; [0%float; 1%float]] !! Z.to_nat 1 = Some eq /\
    ranking ≡ₚ seq 0 2 /\
    forall i e, [[0%float; 0%float]; [0%float; 1%float]] !! i = Some e ->
      is_zero (np_linalg_norm eq) = true \/ is_zero (np_linalg_norm e) = true ->
      is_nan (distance_at ds i) || is_infinity (distance_at ds i) = true.
Proof.
  apply (degenerate_vector_scores [[0%float; 0%float]; [0%float; 1%float]] 1).
  - simpl. lia.
  - repeat constructor.
Defined.

(** ** The embedding cache *)

Section CacheFacts.
Variable provider : nat -> string -> string -> result Embedding.
Variable file_system : nat -> write_outcome.

Lemma embedding_from_string_hit (text model : string) (w : World) (v : Embedding) :
  embedding_cache w !! (text, model) = Some v ->
  embedding_from_string provider file_system text model w = (Ok v, w).
Proof.
  intros H. unfold embedding_from_string, bind, cache_misses, cache_fetch, ret.
  rewrite bool_decide_eq_false_2 by congruence. by rewrite H.
Qed.

(** A miss: the provider is called, its call is logged; an answer is
    stored in the dict, then the file is written. *)
Lemma embedding_from_string_miss (text model : string) (w : World) :
  embedding_cache w !! (text, model) = None ->
  embedding_from_string provider file_system text model w =
    let r := provider (length (api_log w)) text model in
    let w1 := with_api_log (api_log w ++ [(text, model, r)]) w in
    match r with
    | Raise e => (Raise e, w1)
    | Ok v =>
        let w2 := with_cache (<[(text, model) := v]> (embedding_cache w)) w1 in
        let w3 := with_writes (S (writes w)) w2 in
        match file_system (writes w) with
        | Written => (Ok v, with_file (Pickled (embedding_cache w2)) w3)
        | OpenFails => (Raise OSError, w3)
        | DumpFails => (Raise OSError, with_file Corrupt w3)
        end
    end.
Proof.
  intros H.
  unfold embedding_from_string, bind, cache_misses, cache_fetch, ret,
    get_embedding, cache_store, pickle_dump.
  rewrite bool_decide_eq_true_2 by done. cbn.
  destruct (provider (length (api_log w)) text model) as [v|e]; [|done].
  cbn. destruct (file_system (writes w)); cbn; [|done..].
  by rewrite lookup_insert_eq.
Qed.
End CacheFacts.

Lemma invocations_app key l1 l2 :
  invocations key (l1 ++ l2) = invocations key l1 + invocations key l2.
Proof. unfold invocations. by rewrite List.filter_app, length_app. Qed.

Lemma successes_app key l1 l2 :
  successes key (l1 ++ l2) = successes key l1 + successes key l2.
Proof. unfold successes. by rewrite List.filter_app, length_app. Qed.

Lemma successes_le_invocations key l : successes key l <= invocations key l.
Proof.
  unfold successes, invocations, answered.
  induction l as [|c l IH]; cbn; [done|].
  destruct (called key c); cbn; [|done].
  destruct (c.2); cbn; lia.
Qed.

Section CacheEvolution.
Variable provider : nat -> string -> string -> result Embedding.
Variable file_system : nat -> write_outcome.

Lemma cache_evolves_refl (w : World) : cache_evolves provider w w [].
Proof.
  unfold cache_evolves. split_and!.
  - by rewrite app_nil_r.
  - intros n t m r H. done.
  - intros key v H. done.
  - intros key H. by rewrite H.
Qed.

Lemma cache_evolves_trans (w w1 w2 : World) e1 e2 :
  cache_evolves provider w w1 e1 ->
  cache_evolves provider w1 w2 e2 ->
  cache_evolves provider w w2 (e1 ++ e2).
Proof.
  intros (Hl1 & Hp1 & Hk1 & Hn1) (Hl2 & Hp2 & Hk2 & Hn2).
  unfold cache_evolves. split_and!.
  - by rewrite Hl2, Hl1, app_assoc.
  - intros n t m r H. apply lookup_app_Some in H as [H|[Hn H]].
    + by apply Hp1.
    + apply Hp2 in H. rewrite H, Hl1, length_app. f_equal. lia.
  - intros key v H. destruct (Hk1 key v H) as [H1 Hz1].
    destruct (Hk2 key v H1) as [H2 Hz2].
    split; [done|]. rewrite invocations_app. lia.
  - intros key H. specialize (Hn1 key H).
    destruct (embedding_cache w1 !! key) as [v1|] eqn:E1.
    + destruct Hn1 as [Hs1 Hin1]. destruct (Hk2 key v1 E1) as [-> Hz2].
      pose proof (successes_le_invocations key e2).
      split; [rewrite successes_app; lia|]. apply elem_of_app. by left.
    + specialize (Hn2 key E1). rewrite successes_app, Hn1.
      destruct (embedding_cache w2 !! key) as [v2|]; [|done].
      destruct Hn2 as [Hs2 Hin2]. split; [done|]. apply elem_of_app. by right.
Qed.

(** One lookup. *)
Lemma embedding_from_string_evolves (text model : string) (w : World) :
  exists ext,
    cache_evolves provider w
      (embedding_from_string provider file_system text model w).2 ext.
Proof.
  destruct (embedding_cache w !! (text, model)) as [v|] eqn:E.
  - rewrite (embedding_from_string_hit _ _ _ _ _ _ E). exists []. apply cache_evolves_refl.
  - rewrite (embedding_from_string_miss _ _ _ _ _ E). cbn.
    exists [(text, model, provider (length (api_log w)) text model)].
    assert (Hentry : forall n t m r,
              [(text, model, provider (length (api_log w)) text model)] !! n
                = Some (t, m, r) ->
              r = provider (length (api_log w) + n) t m).
    { intros [|n] t m r H; [|done]. cbn in H. injection H as <- <- <-.
      by rewrite Nat.add_0_r. }
    assert (Hother : forall key r, embedding_cache w !! key = Some r ->
              invocations key
                [(text, model, provider (length (api_log w)) text model)] = 0).
    { intros key r H. unfold invocations, called. cbn.
      rewrite bool_decide_eq_false_2; [done|]. intros <-. congruence. }
    destruct (provider (length (api_log w)) text model) as [v|e] eqn:Hr.
    + assert (Hgoal : forall w',
                api_log w' = api_log w ++ [(text, model, Ok v)] ->
                embedding_cache w' = <[(text, model) := v]> (embedding_cache w) ->
                cache_evolves provider w w' [(text, model, Ok v)]).
      { intros w' Hlog Hcache. unfold cache_evolves. split_and!; [done..| |].
        - intros key r H. split; [|by eapply Hother].
          rewrite Hcache, lookup_insert_ne; [done|]. intros <-. congruence.
        - intros key H. rewrite Hcache.
          destruct (decide ((text, model) = key)) as [<-|Hne].
          + rewrite lookup_insert_eq. unfold successes, answered, called. cbn.
            rewrite bool_decide_eq_true_2 by done. cbn.
            split; [done|]. by apply list_elem_of_singleton.
          + rewrite lookup_insert_ne, H by done.
            unfold successes, answered, called. cbn.
            by rewrite bool_decide_eq_false_2. }
      destruct (file_system (writes w)); by apply Hgoal.
    + unfold cache_evolves. split_and!; [done..| |].
      * intros key r H. split; [done|by eapply Hother].
      * intros key H. cbn. rewrite H.
        unfold successes, answered, called. cbn.
        by rewrite andb_false_r.
Qed.

End CacheEvolution.

(** ** The recommendation loop *)

Lemma with_stdout_nil (w : World) : with_stdout (stdout w ++ []) w = w.
Proof. destruct w. unfold with_stdout. cbn. by rewrite app_nil_r. Qed.

Lemma with_stdout_app (w : World) (r : Recommendation) (l : list Recommendation) :
  let w1 := with_stdout (stdout w ++ [r]) w in
  with_stdout (stdout w1 ++ l) w1 = with_stdout (stdout w ++ r :: l) w.
Proof. destruct w. unfold with_stdout. cbn. by rewrite <- app_assoc. Qed.

Lemma qualifying_lookup (strings : list string) (q s : string) (i : nat) :
  strings !! i = Some s -> qualifying strings q i <-> q <> s.
Proof.
  intros H. unfold qualifying. rewrite H.
  split; intros Hne E; apply Hne; congruence.
Qed.

(** On a ranking of valid indices the loop never raises; it prints one
    record for each of the first [k - k_counter] indices whose string
    differs from the query's, in ranking order, numbered from
    [k_counter + 1], and changes nothing but the output. *)
Lemma recommendation_loop_spec
    (strings : list string) (distances : list float) (q : string) (k : Z)
    (ranking : list nat) (k_counter : Z) (w : World) :
  Forall (fun i => i < length strings /\ i < length distances) ranking ->
  exists recs,
    recommendation_loop strings distances q k k_counter ranking w
      = (Ok tt, with_stdout (stdout w ++ recs) w) /\
    rec_index <$> recs = recommended strings q (k - k_counter) ranking /\
    (forall n r, recs !! n = Some r ->
       strings !! rec_index r = Some (rec_string r) /\
       distances !! rec_index r = Some (rec_distance r) /\
       rec_string r <> q /\
       rec_of r = k /\
       rec_number r = (k_counter + 1 + Z.of_nat n)%Z).
Proof.
  revert k_counter w. induction ranking as [|i rest IH]; intros kc w HF.
  - exists []. cbn. unfold ret. rewrite with_stdout_nil.
    split_and!; [done| |done]. unfold recommended. cbn. by rewrite take_nil.
  - apply Forall_cons in HF as [[Hs Hd] HF].
    destruct (lookup_lt_is_Some_2 strings i Hs) as [s Hsi].
    destruct (lookup_lt_is_Some_2 distances i Hd) as [d Hdi].
    cbn [recommendation_loop]. unfold bind at 1, lift at 1.
    rewrite (py_index_of_nat _ _ _ Hsi).
    unfold recommended.
    destruct (decide (q = s)) as [->|Hne].
    + rewrite filter_cons_False
        by (rewrite (qualifying_lookup _ _ _ _ Hsi); intros H; by apply H).
      apply IH, HF.
    + rewrite filter_cons_True by (by rewrite (qualifying_lookup _ _ _ _ Hsi)).
      destruct (Z.geb_spec kc k) as [Hge|Hlt].
      * exists []. unfold ret. rewrite with_stdout_nil.
        split_and!; [done| |done].
        replace (Z.to_nat (k - kc)) with 0 by lia. done.
      * unfold bind, lift, print.
        rewrite ?(py_index_of_nat _ _ _ Hsi), (py_index_of_nat _ _ _ Hdi).
        destruct (IH (kc + 1)%Z
                     (with_stdout (stdout w ++ [mkRecommendation (kc + 1) k i s d]) w) HF)
          as (recs & -> & Hidx & Hrecs).
        exists (mkRecommendation (kc + 1) k i s d :: recs).
        split_and!.
        -- by rewrite with_stdout_app.
        -- replace (Z.to_nat (k - kc)) with (S (Z.to_nat (k - (kc + 1)))) by lia.
           cbn. f_equal. exact Hidx.
        -- intros [|n] r Hn; cbn in Hn.
           ++ injection Hn as <-. cbn. split_and!; try done; try congruence; lia.
           ++ destruct (Hrecs n r Hn) as (? & ? & ? & ? & ->).
              split_and!; try done. lia.
Qed.

(** ** [print_recommendations_from_strings] *)

Lemma py_index_same_length {A B} (l1 : list A) (l2 : list B) (i : Z) (x : A) :
  length l1 = length l2 -> py_index l1 i = Ok x -> exists y, py_index l2 i = Ok y.
Proof.
  unfold py_index. intros Hlen. rewrite <- Hlen.
  set (j := if (i <? 0)%Z then (i + Z.of_nat (length l1))%Z else i).
  destruct (j <? 0)%Z; [done|].
  destruct (l1 !! Z.to_nat j) as [x'|] eqn:E; [|done].
  intros _. apply lookup_lt_Some in E.
  destruct (lookup_lt_is_Some_2 l2 (Z.to_nat j)) as [y ->]; [lia|]. eauto.
Qed.

Lemma cache_evolves_with_stdout provider (w w1 : World) ext o :
  cache_evolves provider w w1 ext -> cache_evolves provider w (with_stdout o w1) ext.
Proof. by destruct w1. Qed.

Section RecommendationFacts.
Variable provider : nat -> string -> string -> result Embedding.
Variable file_system : nat -> write_outcome.

Lemma embedding_from_string_spec (text model : string) (w : World) :
  (exists ext, cache_evolves provider w
                 (embedding_from_string provider file_system text model w).2 ext) /\
  stdout (embedding_from_string provider file_system text model w).2 = stdout w /\
  forall v, (embedding_from_string provider file_system text model w).1 = Ok v ->
    embedding_cache (embedding_from_string provider file_system text model w).2
      !! (text, model) = Some v.
Proof.
  split; [apply embedding_from_string_evolves|].
  destruct (embedding_cache w !! (text, model)) as [v|] eqn:E.
  - rewrite (embedding_from_string_hit _ _ _ _ _ _ E). cbn.
    split; [done|]. by intros ? [= <-].
  - rewrite (embedding_from_string_miss _ _ _ _ _ E). cbn.
    destruct (provider (length (api_log w)) text model) as [v|e]; [|done].
    destruct (file_system (writes w)); cbn; (split; [done|]); try done.
    intros ? [= <-]. by rewrite lookup_insert_eq.
Qed.

(** The list comprehension over the strings: the lookups one after the
    other up to the first that raises. *)
Lemma mapM_embedding_spec (model : string) (strings : list string) (w : World) r w1 :
  mapM (fun s => embedding_from_string provider file_system s model) strings w
    = (r, w1) ->
  (exists ext, cache_evolves provider w w1 ext) /\
  stdout w1 = stdout w /\
  forall embeddings, r = Ok embeddings ->
    length embeddings = length strings /\
    forall i s, strings !! i = Some s ->
      exists v, embeddings !! i = Some v /\
                embedding_cache w1 !! (s, model) = Some v.
Proof.
  revert w r w1. induction strings as [|s0 rest IH]; intros w r w1 H; cbn in H.
  - injection H as <- <-.
    split; [exists []; apply cache_evolves_refl|]. split; [done|].
    intros ? [= <-]. split; [done|]. intros i s H. done.
  - unfold bind at 1 in H.
    destruct (embedding_from_string_spec s0 model w) as ([e1 H1] & Ho1 & Hv1).
    destruct (embedding_from_string provider file_system s0 model w) as [[v|e] w0];
      cbn in *.
    2:{ injection H as <- <-. split; [eauto|]. split; [done|]. intros ? [=]. }
    unfold bind at 1 in H.
    destruct (mapM (fun s => embedding_from_string provider file_system s model) rest w0)
      as [[vs|e] w2] eqn:Hm; cbn in H; injection H as <- <-;
      destruct (IH _ _ _ Hm) as ([e2 H2] & Ho2 & Hv2).
    + split; [exists (e1 ++ e2); by eapply cache_evolves_trans|].
      split; [congruence|]. intros ? [= <-].
      destruct (Hv2 vs eq_refl) as [Hlen Hl]. split; [cbn; by rewrite Hlen|].
      intros [|i] s Hs; cbn in Hs.
      * injection Hs as <-. exists v. split; [done|].
        destruct H2 as (_ & _ & Hk & _). by apply (Hk _ _ (Hv1 v eq_refl)).
      * by apply Hl.
    + split; [exists (e1 ++ e2); by eapply cache_evolves_trans|].
      split; [congruence|]. intros ? [=].
Qed.

(** With a provider that always answers and a file that can always be
    written, every lookup of the comprehension returns. *)
Lemma mapM_embedding_total (model : string) (strings : list string) (w : World) :
  (forall n t m, exists v, provider n t m = Ok v) ->
  (forall n, file_system n = Written) ->
  exists embeddings w1,
    mapM (fun s => embedding_from_string provider file_system s model) strings w
      = (Ok embeddings, w1).
Proof.
  intros Hp Hf. revert w. induction strings as [|s0 rest IH]; intros w; cbn.
  - by eexists _, _.
  - unfold bind at 1.
    assert (exists v w0,
              embedding_from_string provider file_system s0 model w = (Ok v, w0))
      as (v & w0 & ->).
    { destruct (embedding_cache w !! (s0, model)) as [v|] eqn:E.
      - rewrite (embedding_from_string_hit _ _ _ _ _ _ E). eauto.
      - rewrite (embedding_from_string_miss _ _ _ _ _ E). cbv zeta.
        destruct (Hp (length (api_log w)) s0 model) as [v ->].
        rewrite Hf. eauto. }
    unfold bind at 1. destruct (IH w0) as (vs & w1 & ->). cbn. eauto.
Qed.

Lemma print_recommendations_lookup_raises strings index k model w e w1 :
  mapM (fun s => embedding_from_string provider file_system s model) strings w
    = (Raise e, w1) ->
  print_recommendations_from_strings provider file_system strings index k model w
    = (Raise e, w1).
Proof.
  intros H. unfold print_recommendations_from_strings. unfold bind at 1. by rewrite H.
Qed.

Lemma print_recommendations_rank_raises strings index k model w embeddings e w1 :
  mapM (fun s => embedding_from_string provider file_system s model) strings w
    = (Ok embeddings, w1) ->
  rank embeddings index = Raise e ->
  print_recommendations_from_strings provider file_system strings index k model w
    = (Raise e, w1).
Proof.
  intros H Hr. unfold print_recommendations_from_strings. unfold bind at 1. rewrite H.
  unfold rank in Hr. unfold bind at 1, lift at 1.
  destruct (py_index embeddings index) as [eq|e']; cbn in Hr; [|congruence].
  unfold bind at 1, lift at 1.
  destruct (distances_from_embeddings eq embeddings) as [ds|e']; cbn in Hr; congruence.
Qed.

(** When the lookups and the ranking succeed the function returns the
    ranking, and the only further effect is the loop's output. *)
Lemma print_recommendations_returns strings index k model w embeddings w1 ds ranking :
  mapM (fun s => embedding_from_string provider file_system s model) strings w
    = (Ok embeddings, w1) ->
  rank embeddings index = Ok (ds, ranking) ->
  exists query_string recs,
    py_index strings index = Ok query_string /\
    print_recommendations_from_strings provider file_system strings index k model w
      = (Ok ranking, with_stdout (stdout w1 ++ recs) w1) /\
    rec_index <$> recs = recommended strings query_string k ranking /\
    (forall n r, recs !! n = Some r ->
       strings !! rec_index r = Some (rec_string r) /\
       ds !! rec_index r = Some (rec_distance r) /\
       rec_string r <> query_string /\
       rec_of r = k /\
       rec_number r = (1 + Z.of_nat n)%Z).
Proof.
  intros H Hr.
  pose proof (mapM_embedding_spec _ _ _ _ _ H) as (_ & _ & Hv).
  destruct (Hv embeddings eq_refl) as [Hlen _].
  apply rank_inv in Hr as (eq & Hq & Hds & ->).
  destruct (py_index_same_length _ strings _ _ Hlen Hq) as [qs Hqs].
  destruct (distances_from_embeddings_lookup _ _ _ Hds) as [Hlen' _].
  destruct (recommendation_loop_spec strings ds qs k
              (indices_of_closest_matches_from_distances ds) 0 w1)
    as (recs & Hloop & Hidx & Hrecs).
  { rewrite Forall_forall. intros i Hi. apply ranking_elem_of in Hi. lia. }
  exists qs, recs. split; [done|]. split.
  - unfold print_recommendations_from_strings. unfold bind at 1. rewrite H.
    unfold bind at 1, lift at 1. rewrite Hq.
    unfold bind at 1, lift at 1. rewrite Hds.
    unfold bind at 1, lift at 1. rewrite Hqs.
    unfold bind at 1. rewrite Hloop. done.
  - rewrite Z.sub_0_r in Hidx. split; [done|].
    intros n r Hn. destruct (Hrecs n r Hn) as (? & ? & ? & ? & ->). done.
Qed.

(** The function returns when the provider always answers with vectors of
    one length [d], the cache holds only such vectors, the file can be
    written and the index is valid. *)
Lemma print_recommendations_total (d : nat) strings index k model w :
  (forall n t m, exists v, provider n t m = Ok v /\ length v = d) ->
  (forall n, file_system n = Written) ->
  (forall key v, embedding_cache w !! key = Some v -> length v = d) ->
  (0 <= index < Z.of_nat (length strings))%Z ->
  exists ranking w',
    print_recommendations_from_strings provider file_system strings index k model w
      = (Ok ranking, w').
Proof.
  intros Hp Hf Hc Hi.
  destruct (mapM_embedding_total model strings w) as (embs & w1 & Hm); [|done|].
  { intros n t m. destruct (Hp n t m) as (v & ? & _). eauto. }
  pose proof (mapM_embedding_spec _ _ _ _ _ Hm) as ([ext Hev] & _ & Hv).
  destruct (Hv embs eq_refl) as [Hlen Hl].
  assert (Hd : forall e, e ∈ embs -> length e = d).
  { intros e He. apply list_elem_of_lookup in He as [i He].
    destruct (lookup_lt_is_Some_2 strings i) as [s Hs].
    { rewrite <- Hlen. by eapply lookup_lt_Some. }
    destruct (Hl i s Hs) as (v & Hv' & Hcv).
    assert (v = e) as -> by (unfold Embedding in *; congruence).
    destruct Hev as (_ & Hans & Hk & Hn).
    destruct (embedding_cache w !! (s, model)) as [v0|] eqn:E.
    - destruct (Hk _ _ E) as [Hk' _]. rewrite Hcv in Hk'. injection Hk' as ->.
      by eapply Hc.
    - specialize (Hn _ E). rewrite Hcv in Hn. destruct Hn as [_ Hin].
      apply list_elem_of_lookup in Hin as [n Hin]. apply Hans in Hin.
      destruct (Hp (length (api_log w) + n) s model) as (v & Hpv & <-). congruence. }
  destruct (rank_total embs index) as (eq & ds & _ & _ & Hr).
  { by rewrite Hlen. }
  { unfold same_dimension. rewrite Forall_forall. intros e1 H1.
    rewrite Forall_forall. intros e2 H2. by rewrite (Hd e1), (Hd e2). }
  destruct (print_recommendations_returns strings index k model w _ _ _ _ Hm Hr)
    as (qs & recs & _ & -> & _).
  eauto.
Qed.

Lemma perform_evolves (op : operation) (w : World) :
  exists ext, cache_evolves provider w (perform provider file_system op w) ext.
Proof.
  destruct op as [t m|strings index k model]; cbn.
  - apply embedding_from_string_evolves.
  - destruct (mapM (fun s => embedding_from_string provider file_system s model) strings w)
      as [[embs|e] w1] eqn:Hm;
      pose proof (mapM_embedding_spec _ _ _ _ _ Hm) as (Hev & _ & _).
    + destruct (rank embs index) as [[ds ranking]|e] eqn:Hr.
      * destruct (print_recommendations_returns strings index k model w _ _ _ _ Hm Hr)
          as (qs & recs & _ & -> & _).
        cbn. destruct Hev as [ext Hev]. exists ext.
        by apply cache_evolves_with_stdout.
      * by rewrite (print_recommendations_rank_raises _ _ _ _ _ _ _ _ Hm Hr).
    + by rewrite (print_recommendations_lookup_raises _ _ _ _ _ _ _ Hm).
Qed.

Lemma run_session_evolves (ops : list operation) (w : World) :
  exists ext, cache_evolves provider w (run_session provider file_system ops w) ext.
Proof.
  revert w. induction ops as [|op ops IH]; intros w; cbn.
  - exists []. apply cache_evolves_refl.
  - destruct (perform_evolves op w) as [e1 H1].
    destruct (IH (perform provider file_system op w)) as [e2 H2].
    exists (e1 ++ e2). by eapply cache_evolves_trans.
Qed.
End RecommendationFacts.

(** ** Claims about the cache *)


(** C5, as the claim states it, fails for a corrupt file: only
    FileNotFoundError is caught, the error of unpickling propagates. *)
Lemma corrupt_cache_file_counterexample :
  load_embedding_cache disk_ok (fresh_world Corrupt)
    = (Raise UnpicklingError, fresh_world Corrupt).
Proof. reflexivity. Qed.

(** C5, amended: a missing file is tolerated, the cache starts empty and
    is written out (the cell raises only if that write fails); a file that
    does not unpickle makes the cell raise, with nothing assigned or
    written; a file that unpickles gives the cache its contents. *)
Theorem load_embedding_cache_spec (file_system : nat -> write_outcome) (w : World) :
  match cache_file w with
  | Absent =>
      embedding_cache (load_embedding_cache file_system w).2 = ∅ /\
      (load_embedding_cache file_system w).1 =
        match file_system (writes w) with
        | Written => Ok tt
        | _ => Raise OSError
        end /\
      cache_file (load_embedding_cache file_system w).2 =
        match file_system (writes w) with
        | Written => Pickled ∅
        | OpenFails => Absent
        | DumpFails => Corrupt
        end
  | Corrupt =>
      load_embedding_cache file_system w = (Raise UnpicklingError, w)
  | Pickled c =>
      embedding_cache (load_embedding_cache file_system w).2 = c
  end.
Proof.
  unfold load_embedding_cache, bind, try_except, read_pickle, assign_cache, pickle_dump.
  destruct w as [c f l n o]. cbn.
  destruct f; cbn; [rewrite decide_True by done; cbn|done|];
    destruct (file_system n); done.
Qed.

(** C8: on a miss the provider's answer is stored in the dict before the
    file is written. Whatever the outcome of the write, the dict holds the
    new entry next to all the old ones; a write that succeeds writes the
    dict with the new entry in it; a write that fails makes the lookup
    raise, leaves the file as it was or truncated, and the next lookup of
    the pair answers from the dict, touching neither provider nor file. *)
Theorem cache_entry_survives_failed_write
    (provider : nat -> string -> string -> result Embedding)
    (file_system : nat -> write_outcome)
    (text model : string) (w : World) (v : Embedding) :
  embedding_cache w !! (text, model) = None ->
  provider (length (api_log w)) text model = Ok v ->
  exists r w1,
    embedding_from_string provider file_system text model w = (r, w1) /\
    embedding_cache w1 = <[(text, model) := v]> (embedding_cache w) /\
    match file_system (writes w) with
    | Written =>
        r = Ok v /\
        cache_file w1 = Pickled (<[(text, model) := v]> (embedding_cache w))
    | OpenFails => r = Raise OSError /\ cache_file w1 = cache_file w
    | DumpFails => r = Raise OSError /\ cache_file w1 = Corrupt
    end /\
    forall file_system',
      embedding_from_string provider file_system' text model w1 = (Ok v, w1).
Proof.
  intros Hmiss Hv.
  rewrite (embedding_from_string_miss _ _ _ _ _ Hmiss). cbv zeta. rewrite Hv.
  destruct (file_system (writes w)); eexists _, _;
    (split; [reflexivity|]); (split; [reflexivity|]);
    (split; [split; reflexivity|]);
    intros fs'; apply embedding_from_string_hit;
    unfold with_file, with_writes, with_cache, with_api_log; cbn [embedding_cache];
    apply lookup_insert_eq.
Qed.

Lemma cache_entry_survives_failed_write_witness :
  exists r w1,
    embedding_from_string toy_provider disk_full "A" "m" (fresh_world Absent) = (r, w1) /\
    embedding_cache w1 = <[("A", "m")%string := [1%float; 0%float]]> ∅ /\
    (r = Raise OSError /\ cache_file w1 = Corrupt) /\
    forall file_system',
      embedding_from_string toy_provider file_system' "A" "m" w1
        = (Ok [1%float; 0%float], w1).
Proof.
  apply (cache_entry_survives_failed_write toy_provider disk_full
           "A"%string "m"%string (fresh_world Absent) [1%float; 0%float]).
  - reflexivity.
  - reflexivity.
Defined.

(** C9: over any session, an entry the cache holds is still there with
    the same embedding afterwards and the provider is not called for its
    key; an entry that the session adds holds an answer of the provider
    to a call for that key, the only call for that key that returned an
    embedding. *)
Theorem cache_entry_write_once
    (provider : nat -> string -> string -> result Embedding)
    (file_system : nat -> write_outcome)
    (ops : list operation) (w : World) (text model : string) :
  exists ext,
    api_log (run_session provider file_system ops w) = api_log w ++ ext /\
    (forall v, embedding_cache w !! (text, model) = Some v ->
       embedding_cache (run_session provider file_system ops w) !! (text, model) = Some v /\
       invocations (text, model) ext = 0) /\
    (forall v, embedding_cache w !! (text, model) = None ->
       embedding_cache (run_session provider file_system ops w) !! (text, model) = Some v ->
       successes (text, model) ext = 1 /\
       exists n, ext !! n = Some (text, model, Ok v) /\
                 provider (length (api_log w) + n) text model = Ok v).
Proof.
  destruct (run_session_evolves provider file_system ops w) as [ext Hev].
  exists ext. destruct Hev as (Hlog & Hp & Hk & Hn). split_and!; [done|by apply Hk|].
  intros v Hnone Hsome. specialize (Hn _ Hnone). rewrite Hsome in Hn.
  destruct Hn as [Hs Hin]. split; [done|].
  apply list_elem_of_lookup in Hin as [n Hin]. exists n. split; [done|].
  symmetry. by apply Hp.
Qed.

Lemma cache_entry_write_once_witness :
  exists ext,
    api_log (run_session toy_provider disk_ok
               [Lookup "A" "m"; Recommend ["A"; "B"]%string 0 1 "m"; Lookup "A" "m"]
               (fresh_world Absent)) = [] ++ ext /\
    successes ("A", "m")%string ext = 1 /\
    exists n, ext !! n = Some ("A", "m", Ok [1%float; 0%float])%string /\
              toy_provider (0 + n) "A" "m" = Ok [1%float; 0%float].
Proof.
  destruct (cache_entry_write_once toy_provider disk_ok
              [Lookup "A" "m"; Recommend ["A"; "B"]%string 0 1 "m"; Lookup "A" "m"]
              (fresh_world Absent) "A"%string "m"%string)
    as (ext & Hlog & _ & Hnew).
  exists ext. split; [exact Hlog|].
  apply (Hnew [1%float; 0%float]).
  - reflexivity.
  - vm_compute. reflexivity.
Defined.

(** ** Claims about the recommendations *)

Lemma rank_ranking_perm (embeddings : list Embedding) (index : Z) ds ranking :
  rank embeddings index = Ok (ds, ranking) ->
  ranking ≡ₚ seq 0 (length embeddings).
Proof.
  intros H. apply rank_inv in H as (eq & _ & Hds & ->).
  apply distances_from_embeddings_lookup in Hds as [<- _]. apply ranking_perm.
Qed.

(** C6: the loop walks the whole ranking and prints, for the first [k]
    indices whose string differs from the query's, in ranking order; no
    printed string equals the query's, so neither the query index nor any
    other index with the same text is recommended. For the corpus
    A, A, B, whatever the provider answers, both copies of A get the one
    embedding the cache holds for A, and the single recommendation for
    index 0 with k = 1 is index 2. *)
Theorem recommendations_skip_query_text
    (provider : nat -> string -> string -> result Embedding)
    (file_system : nat -> write_outcome) :
  (forall strings index k model w embeddings w1 ds ranking,
     mapM (fun s => embedding_from_string provider file_system s model) strings w
       = (Ok embeddings, w1) ->
     rank embeddings index = Ok (ds, ranking) ->
     exists query_string recs,
       py_index strings index = Ok query_string /\
       print_recommendations_from_strings provider file_system strings index k model w
         = (Ok ranking, with_stdout (stdout w1 ++ recs) w1) /\
       rec_index <$> recs
         = take (Z.to_nat k) (filter (qualifying strings query_string) ranking) /\
       forall r, r ∈ recs ->
         strings !! rec_index r = Some (rec_string r) /\
         rec_string r <> query_string /\
         strings !! rec_index r <> Some query_string) /\
  (forall model w embeddings w1 ds ranking,
     mapM (fun s => embedding_from_string provider file_system s model)
          ["A"; "A"; "B"]%string w = (Ok embeddings, w1) ->
     rank embeddings 0 = Ok (ds, ranking) ->
     embeddings !! 0 = embeddings !! 1 /\
     exists recs,
       print_recommendations_from_strings provider file_system
         ["A"; "A"; "B"]%string 0 1 model w
         = (Ok ranking, with_stdout (stdout w1 ++ recs) w1) /\
       rec_index <$> recs = [2]).
Proof.
  split.
  - intros strings index k model w embeddings w1 ds ranking Hm Hr.
    destruct (print_recommendations_returns provider file_system
                strings index k model w _ _ _ _ Hm Hr)
      as (qs & recs & Hq & Hp & Hidx & Hrecs).
    exists qs, recs. split_and!; try done.
    intros r Hin. apply list_elem_of_lookup in Hin as [n Hn].
    destruct (Hrecs n r Hn) as (Hs & _ & Hne & _).
    split_and!; [done..|]. rewrite Hs. congruence.
  - intros model w embeddings w1 ds ranking Hm Hr.
    pose proof (mapM_embedding_spec _ _ _ _ _ _ _ Hm) as (_ & _ & Hv).
    destruct (Hv embeddings eq_refl) as [Hlen Hl].
    split.
    + destruct (Hl 0 "A"%string eq_refl) as (v0 & -> & Hc0).
      destruct (Hl 1 "A"%string eq_refl) as (v1 & -> & Hc1). congruence.
    + destruct (print_recommendations_returns provider file_system
                  _ 0 1 model w _ _ _ _ Hm Hr)
        as (qs & recs & Hq & Hp & Hidx & _).
      exists recs. split; [done|].
      injection Hq as <-. rewrite Hidx. unfold recommended.
      assert (Hf : filter (qualifying ["A"; "A"; "B"]%string "A"%string) ranking = [2]).
      { apply Permutation_singleton_r.
        rewrite (rank_ranking_perm _ _ _ _ Hr), Hlen. reflexivity. }
      by rewrite Hf.
Qed.

Lemma recommendations_skip_query_text_witness :
  exists recs,
    print_recommendations_from_strings toy_provider disk_ok
      ["A"; "A"; "B"]%string 0 1 "m" (fresh_world Absent)
      = (Ok [1; 0; 2],
         with_stdout (stdout
           (mapM (fun s => embedding_from_string toy_provider disk_ok s "m")
                 ["A"; "A"; "B"]%string (fresh_world Absent)).2 ++ recs)
           (mapM (fun s => embedding_from_string toy_provider disk_ok s "m")
                 ["A"; "A"; "B"]%string (fresh_world Absent)).2) /\
    rec_index <$> recs = [2].
Proof.
  apply (proj2 (recommendations_skip_query_text toy_provider disk_ok)
           "m"%string (fresh_world Absent)
           [[1%float; 0%float]; [1%float; 0%float]; [0%float; 1%float]]
           _ [1%float; 1%float; 0%float] [1; 0; 2]).
  - vm_compute. reflexivity.
  - vm_compute. reflexivity.
Defined.

(** C7: when the lookups and the ranking succeed the function returns
    without an exception and prints exactly min(k, n) recommendations,
    n being the number of corpus entries whose text differs from the
    query's: all n of them when fewer than k exist, never a padding entry.
    ([k] is a Python int: a negative k prints nothing.) *)
Theorem recommendations_truncate_at_k
    (provider : nat -> string -> string -> result Embedding)
    (file_system : nat -> write_outcome)
    (strings : list string) (index k : Z) (model : string) (w : World)
    (embeddings : list Embedding) (w1 : World) (ds : list float) (ranking : list nat) :
  mapM (fun s => embedding_from_string provider file_system s model) strings w
    = (Ok embeddings, w1) ->
  rank embeddings index = Ok (ds, ranking) ->
  exists query_string recs,
    py_index strings index = Ok query_string /\
    print_recommendations_from_strings provider file_system strings index k model w
      = (Ok ranking, with_stdout (stdout w1 ++ recs) w1) /\
    ((0 <= k)%Z ->
     Z.of_nat (length recs) =
       Z.min k (Z.of_nat (length (filter (qualifying strings query_string)
                                         (seq 0 (length strings)))))) /\
    ((k < 0)%Z -> recs = []).
Proof.
  intros Hm Hr.
  destruct (print_recommendations_returns provider file_system
              strings index k model w _ _ _ _ Hm Hr)
    as (qs & recs & Hq & Hp & Hidx & _).
  pose proof (mapM_embedding_spec _ _ _ _ _ _ _ Hm) as (_ & _ & Hv).
  destruct (Hv embeddings eq_refl) as [Hlen _].
  exists qs, recs. split_and!; [done..| |].
  - intros Hk. rewrite <- (length_fmap rec_index), Hidx. unfold recommended.
    rewrite length_take, (rank_ranking_perm _ _ _ _ Hr), Hlen. lia.
  - intros Hk. apply (fmap_nil_inv rec_index). rewrite Hidx. unfold recommended.
    by replace (Z.to_nat k) with 0 by lia.
Qed.

Lemma recommendations_truncate_at_k_witness :
  exists query_string recs,
    py_index ["A"; "B"]%string 0 = Ok query_string /\
    print_recommendations_from_strings toy_provider disk_ok
      ["A"; "B"]%string 0 5 "m" (fresh_world Absent)
      = (Ok [0; 1],
         with_stdout (stdout
           (mapM (fun s => embedding_from_string toy_provider disk_ok s "m")
                 ["A"; "B"]%string (fresh_world Absent)).2 ++ recs)
           (mapM (fun s => embedding_from_string toy_provider disk_ok s "m")
                 ["A"; "B"]%string (fresh_world Absent)).2) /\
    ((0 <= 5)%Z ->
     Z.of_nat (length recs) =
       Z.min 5 (Z.of_nat (length (filter (qualifying ["A"; "B"]%string query_string)
                                         (seq 0 2))))) /\
    ((5 < 0)%Z -> recs = []).
Proof.
  apply (recommendations_truncate_at_k toy_provider disk_ok
           ["A"; "B"]%string 0 5 "m"%string (fresh_world Absent)
           [[1%float; 0%float]; [0%float; 1%float]]
           _ [1%float; 0%float] [0; 1]).
  - vm_compute. reflexivity.
  - vm_compute. reflexivity.
Defined.

(** C10, as the claim states it, fails where it calls the returned list
    descending for every corpus: when the provider answers a text with the
    zero vector, that text's score is 0/0 = NaN, and the list returned for
    the corpus A, Z and query 0 is [1; 0], the NaN of index 1 before the
    score 1.0 of the query. *)
Lemma returned_ranking_not_descending_counterexample :
  exists w',
    print_recommendations_from_strings zero_provider disk_ok
      ["A"; "Z"]%string 0 1 "m" (fresh_world Absent) = (Ok [1; 0], w') /\
    rank [[1%float; 0%float]; [0%float; 0%float]] 0 = Ok ([1%float; nan], [1; 0]) /\
    is_nan (distance_at [1%float; nan] 1) = true /\
    PrimFloat.leb (distance_at [1%float; nan] 0) (distance_at [1%float; nan] 1) = false.
Proof.
  eexists. split; [vm_compute; reflexivity|]. split_and!; reflexivity.
Qed.

(** C10, amended: the value returned does not depend on
    [k_nearest_neighbors] (nor does the exception, when one is raised);
    when the lookups and the ranking succeed it is the ranking itself, a
    permutation of all indices of the corpus, the query's and those of
    equal texts included, and it is descending in the scores when no score
    is NaN: the limit k and the skipping of equal texts shape the output
    only. *)
Theorem return_value_independent_of_k
    (provider : nat -> string -> string -> result Embedding)
    (file_system : nat -> write_outcome)
    (strings : list string) (index : Z) (model : string) (w : World) (k1 k2 : Z) :
  (print_recommendations_from_strings provider file_system strings index k1 model w).1
    = (print_recommendations_from_strings provider file_system strings index k2 model w).1 /\
  forall embeddings w1 ds ranking,
    mapM (fun s => embedding_from_string provider file_system s model) strings w
      = (Ok embeddings, w1) ->
    rank embeddings index = Ok (ds, ranking) ->
    (print_recommendations_from_strings provider file_system strings index k1 model w).1
      = Ok ranking /\
    ranking = indices_of_closest_matches_from_distances ds /\
    ranking ≡ₚ seq 0 (length strings) /\
    (ordered_scores ds ->
     StronglySorted
       (fun i j => PrimFloat.leb (distance_at ds j) (distance_at ds i) = true)
       ranking).
Proof.
  split.
  - destruct (mapM (fun s => embedding_from_string provider file_system s model) strings w)
      as [[embs|e] w1] eqn:Hm.
    + destruct (rank embs index) as [[ds ranking]|e] eqn:Hr.
      * destruct (print_recommendations_returns provider file_system
                    strings index k1 model w _ _ _ _ Hm Hr) as (? & ? & _ & -> & _).
        destruct (print_recommendations_returns provider file_system
                    strings index k2 model w _ _ _ _ Hm Hr) as (? & ? & _ & -> & _).
        done.
      * by rewrite !(print_recommendations_rank_raises _ _ _ _ _ _ _ _ _ _ Hm Hr).
    + by rewrite !(print_recommendations_lookup_raises _ _ _ _ _ _ _ _ _ Hm).
  - intros embeddings w1 ds ranking Hm Hr.
    destruct (print_recommendations_returns provider file_system
                strings index k1 model w _ _ _ _ Hm Hr) as (? & ? & _ & -> & _).
    pose proof (mapM_embedding_spec _ _ _ _ _ _ _ Hm) as (_ & _ & Hv).
    destruct (Hv embeddings eq_refl) as [Hlen _].
    split_and!; [done| | |].
    + by apply rank_inv in Hr as (? & _ & _ & ->).
    + by rewrite (rank_ranking_perm _ _ _ _ Hr), Hlen.
    + intros Hord. apply rank_inv in Hr as (? & _ & _ & ->).
      by apply ranking_sorted_leb.
Qed.

Lemma return_value_independent_of_k_witness :
  (print_recommendations_from_strings toy_provider disk_ok
     ["A"; "A"; "B"]%string 0 1 "m" (fresh_world Absent)).1 = Ok [1; 0; 2] /\
  [1; 0; 2] = indices_of_closest_matches_from_distances [1%float; 1%float; 0%float] /\
  [1; 0; 2] ≡ₚ seq 0 3 /\
  (ordered_scores [1%float; 1%float; 0%float] ->
   StronglySorted
     (fun i j => PrimFloat.leb (distance_at [1%float; 1%float; 0%float] j)
                               (distance_at [1%float; 1%float; 0%float] i) = true)
     [1; 0; 2]).
Proof.
  apply (proj2 (return_value_independent_of_k toy_provider disk_ok
                  ["A"; "A"; "B"]%string 0 "m"%string (fresh_world Absent) 1 10)
           [[1%float; 0%float]; [1%float; 0%float]; [0%float; 1%float]]
           (mapM (fun s => embedding_from_string toy_provider disk_ok s "m")
                 ["A"; "A"; "B"]%string (fresh_world Absent)).2
           [1%float; 1%float; 0%float] [1; 0; 2]).
  - vm_compute. reflexivity.
  - vm_compute. reflexivity.
Defined.

(* ===================================================================== *)
(** * Further properties *)
(* ===================================================================== *)

(** ** Text cleaning *)

Lemma sub_char_elem_of (p : Z -> bool) (repl text : list Z) (c : Z) :
  c ∈ sub_char p repl text -> c ∈ repl \/ (c ∈ text /\ p c = false).
Proof.
  induction text as [|x rest IH]; cbn; [by intros ?%elem_of_nil|].
  intros [H|H]%elem_of_app.
  - destruct (p x) eqn:E; [by left|].
    apply list_elem_of_singleton in H as ->. right. split; [by left|done].
  - destruct (IH H) as [?|[? ?]]; [by left|]. right. split; [by right|done].
Qed.

Lemma sub_runs_elem_of (p : Z -> bool) (repl text : list Z) (b : bool) (c : Z) :
  c ∈ sub_runs p repl b text -> c ∈ repl \/ (c ∈ text /\ p c = false).
Proof.
  revert b. induction text as [|x rest IH]; intros b; cbn; [by intros ?%elem_of_nil|].
  destruct (p x) eqn:E.
  - intros [H|H]%elem_of_app.
    + destruct b; [by apply elem_of_nil in H|by left].
    + destruct (IH _ H) as [?|[? ?]]; [by left|]. right. split; [by right|done].
  - intros H%elem_of_cons. destruct H as [Hc|H].
    + subst c. right. split; [by left|done].
    + destruct (IH _ H) as [?|[? ?]]; [by left|]. right. split; [by right|done].
Qed.

Lemma sub_char_id (p : Z -> bool) (repl text : list Z) :
  Forall (fun c => p c = false) text -> sub_char p repl text = text.
Proof.
  induction 1 as [|x rest Hx _ IH]; cbn; [done|]. by rewrite Hx, IH.
Qed.

Lemma lstrip_elem_of (p : Z -> bool) (text : list Z) (c : Z) :
  c ∈ lstrip p text -> c ∈ text.
Proof.
  induction text as [|x rest IH]; cbn; [done|].
  destruct (p x); [|done]. intros H. right. by apply IH.
Qed.

Lemma lstrip_head (p : Z -> bool) (text : list Z) (c : Z) :
  head (lstrip p text) = Some c -> p c = false.
Proof.
  induction text as [|x rest IH]; cbn; [done|].
  destruct (p x) eqn:E; [done|]. cbn. by intros [= <-].
Qed.

Lemma lstrip_last (p : Z -> bool) (text : list Z) (c : Z) :
  last (lstrip p text) = Some c -> last text = Some c.
Proof.
  induction text as [|x rest IH]; cbn [lstrip]; [done|].
  destruct (p x); [|done]. intros H. specialize (IH H).
  destruct rest; [done|]. by rewrite last_cons_cons.
Qed.

Lemma lstrip_id (p : Z -> bool) (text : list Z) :
  (forall c, head text = Some c -> p c = false) -> lstrip p text = text.
Proof.
  destruct text as [|x rest]; cbn; [done|]. intros H. by rewrite (H x eq_refl).
Qed.

Lemma strip_elem_of (p : Z -> bool) (text : list Z) (c : Z) :
  c ∈ strip p text -> c ∈ text.
Proof.
  unfold strip. rewrite elem_of_reverse. intros H%lstrip_elem_of.
  rewrite elem_of_reverse in H. by apply lstrip_elem_of in H.
Qed.

Lemma strip_head (p : Z -> bool) (text : list Z) (c : Z) :
  head (strip p text) = Some c -> p c = false.
Proof.
  unfold strip. rewrite head_reverse. intros H%lstrip_last.
  rewrite last_reverse in H. by apply lstrip_head in H.
Qed.

Lemma strip_last (p : Z -> bool) (text : list Z) (c : Z) :
  last (strip p text) = Some c -> p c = false.
Proof. unfold strip. rewrite last_reverse. apply lstrip_head. Qed.

Lemma strip_id (p : Z -> bool) (text : list Z) :
  (forall c, head text = Some c -> p c = false) ->
  (forall c, last text = Some c -> p c = false) ->
  strip p text = text.
Proof.
  intros Hh Hl. unfold strip. rewrite (lstrip_id p text Hh).
  rewrite lstrip_id; [apply reverse_involutive|].
  intros c. rewrite head_reverse. apply Hl.
Qed.

Section CleanTextFacts.
Variable is_space : Z -> bool.
Variable is_word : Z -> bool.
Variable is_digit : Z -> bool.
Variable is_strip_space : Z -> bool.

Lemma clean_text_elem_of (text : list Z) (c : Z) :
  c ∈ clean_text is_space is_word is_digit is_strip_space text ->
  clean_char is_word is_digit c.
Proof.
  intros Hc. unfold clean_text in Hc.
  apply strip_elem_of in Hc.
  apply sub_char_elem_of in Hc as [Hc|[Hc Hkeep]]; [by apply elem_of_nil in Hc|].
  apply negb_false_iff in Hkeep.
  apply sub_runs_elem_of in Hc as [Hc|[_ Hs]].
  - apply list_elem_of_singleton in Hc. by right.
  - left. rewrite Hs, orb_false_r in Hkeep. done.
Qed.

Lemma clean_text_space (text : list Z) (c : Z) :
  c ∈ clean_text is_space is_word is_digit is_strip_space text ->
  is_space c = true -> c = 32%Z.
Proof.
  intros Hc Hs. unfold clean_text in Hc.
  apply strip_elem_of in Hc.
  apply sub_char_elem_of in Hc as [Hc|[Hc _]]; [by apply elem_of_nil in Hc|].
  apply sub_runs_elem_of in Hc as [Hc|[_ Hs']]; [|congruence].
  by apply list_elem_of_singleton in Hc.
Qed.

(** X1. Whatever the character classes, every character that [clean_text]
    returns is of [\w] or [\d], or is the space, and the space is the
    only whitespace character it returns: the punctuation is deleted and
    no newline, tab or other whitespace survives as itself. (Spaces can
    still stand side by side in the result, where punctuation was deleted
    between them.) *)
Theorem clean_text_alphabet (text : list Z) :
  Forall (clean_char is_word is_digit)
         (clean_text is_space is_word is_digit is_strip_space text) /\
  Forall (fun c => is_space c = true -> c = 32%Z)
         (clean_text is_space is_word is_digit is_strip_space text).
Proof.
  split; rewrite Forall_forall; intros c Hc.
  - by eapply clean_text_elem_of.
  - by eapply clean_text_space.
Qed.

(** X2. When [str.strip] takes the space for whitespace, the result of
    [clean_text] is empty or begins and ends with a character of [\w] or
    [\d]. *)
Theorem clean_text_ends (text : list Z) (c : Z) :
  is_strip_space 32 = true ->
  head (clean_text is_space is_word is_digit is_strip_space text) = Some c \/
  last (clean_text is_space is_word is_digit is_strip_space text) = Some c ->
  is_word c || is_digit c = true /\ is_strip_space c = false.
Proof.
  intros H32 Hc.
  assert (Hin : c ∈ clean_text is_space is_word is_digit is_strip_space text).
  { destruct Hc as [Hc|Hc]; [by apply head_Some_elem_of|by apply last_Some_elem_of]. }
  assert (Hns : is_strip_space c = false).
  { unfold clean_text in Hc. destruct Hc as [Hc|Hc];
      [by apply strip_head in Hc|by apply strip_last in Hc]. }
  split; [|done].
  destruct (clean_text_elem_of text c Hin) as [?| ->]; [done|congruence].
Qed.

Lemma sub_runs_id (text : list Z) (b : bool) :
  Forall (fun c => is_space c = true -> c = 32%Z) text ->
  (forall i, text !! i = Some 32%Z -> text !! S i <> Some 32%Z) ->
  (b = true -> head text <> Some 32%Z) ->
  sub_runs is_space [32%Z] b text = text.
Proof.
  revert b. induction text as [|x rest IH]; intros b Hall Hadj Hb; cbn; [done|].
  apply Forall_cons in Hall as [Hx Hall].
  assert (Hadj' : forall i, rest !! i = Some 32%Z -> rest !! S i <> Some 32%Z).
  { intros i Hi. by apply (Hadj (S i)). }
  destruct (is_space x) eqn:E.
  - rewrite (Hx eq_refl) in *. destruct b; [by destruct Hb|].
    cbn. f_equal. apply IH; [done..|].
    intros _. rewrite head_lookup. by apply (Hadj 0).
  - f_equal. by apply IH.
Qed.

(** X3. Text that is already clean passes through unchanged: when the
    characters of [\w] and [\d] are neither whitespace nor the newline,
    the ampersand or the bar, a text made of such characters and of single
    spaces, with no space at either end, is returned as it is. *)
Theorem clean_text_fixpoint (text : list Z) :
  is_space 32 = true ->
  (forall c, is_word c || is_digit c = true ->
     is_space c = false /\ is_strip_space c = false /\
     c <> 10%Z /\ c <> 38%Z /\ c <> 124%Z) ->
  Forall (clean_char is_word is_digit) text ->
  (forall i, text !! i = Some 32%Z -> text !! S i <> Some 32%Z) ->
  head text <> Some 32%Z ->
  last text <> Some 32%Z ->
  clean_text is_space is_word is_digit is_strip_space text = text.
Proof.
  intros H32 Hclass Hall Hadj Hhead Hlast. unfold clean_text.
  assert (Hne : forall k, k <> 32%Z -> (forall c, is_word c || is_digit c = true -> c <> k) ->
                  Forall (fun c => (k =? c)%Z = false) text).
  { intros k Hk Hw. eapply Forall_impl; [exact Hall|]. cbn.
    intros c [Hc| ->]; apply Z.eqb_neq; [intros <-; by apply (Hw k)|done]. }
  rewrite (sub_char_id (Z.eqb 10)) by (apply Hne; [done|]; intros c Hc; apply Hclass, Hc).
  rewrite (sub_char_id (Z.eqb 38)) by (apply Hne; [done|]; intros c Hc; apply Hclass, Hc).
  rewrite (sub_char_id (Z.eqb 124)) by (apply Hne; [done|]; intros c Hc; apply Hclass, Hc).
  rewrite sub_runs_id; [|eapply Forall_impl; [exact Hall|]|done|done].
  2:{ cbn. intros c [Hc| ->] Hs; [|done].
      destruct (Hclass c Hc) as [Hs' _]. congruence. }
  rewrite sub_char_id.
  2:{ eapply Forall_impl; [exact Hall|]. cbn.
      intros c [Hc| ->]; [by rewrite Hc|by rewrite H32, orb_true_r]. }
  rewrite Forall_forall in Hall.
  apply strip_id; intros c Hc.
  - destruct (Hall c (head_Some_elem_of _ _ Hc)) as [Hw| ->]; [|done].
    by apply Hclass.
  - destruct (Hall c (last_Some_elem_of _ _ Hc)) as [Hw| ->]; [|done].
    by apply Hclass.
Qed.

(** X4. Every text of the column is the cleaned headline, one space and
    the cleaned description of its row: it holds a space and otherwise
    only characters of [\w] and [\d]; the column has one text per row
    that has both fields. *)
Theorem text_column_spec (headline short_description : list (list Z)) :
  length (text_column is_space is_word is_digit is_strip_space headline short_description)
    = min (length headline) (length short_description) /\
  forall i text,
    text_column is_space is_word is_digit is_strip_space headline short_description !! i
      = Some text ->
    (exists h d, headline !! i = Some h /\ short_description !! i = Some d /\
       text = clean_text is_space is_word is_digit is_strip_space h ++ [32%Z] ++
              clean_text is_space is_word is_digit is_strip_space d) /\
    Forall (clean_char is_word is_digit) text.
Proof.
  unfold text_column. split.
  - by rewrite length_zip_with, !length_fmap.
  - intros i text Hi. apply lookup_zip_with_Some in Hi as (h' & d' & -> & Hh & Hd).
    apply list_lookup_fmap_Some in Hh as (h & -> & Hh), Hd as (d & -> & Hd).
    split; [by exists h, d|].
    rewrite !Forall_app. split_and!.
    + rewrite Forall_forall. intros c. apply clean_text_elem_of.
    + apply Forall_singleton. by right.
    + rewrite Forall_forall. intros c. apply clean_text_elem_of.
Qed.
End CleanTextFacts.

(** The punctuation goes after the runs of whitespace were reduced: of
    "a . b" the two spaces around the dot both stay. *)
Lemma clean_text_adjacent_spaces_example :
  clean_text ascii_space ascii_word ascii_digit ascii_strip_space [97; 32; 46; 32; 98]%Z
    = [97; 32; 32; 98]%Z.
Proof. reflexivity. Qed.

Lemma clean_text_ends_witness :
  ascii_word 97 || ascii_digit 97 = true /\ ascii_strip_space 97 = false.
Proof.
  apply (clean_text_ends ascii_space ascii_word ascii_digit ascii_strip_space
           [32; 97; 38; 98; 32]%Z 97%Z).
  - reflexivity.
  - left. reflexivity.
Defined.

Lemma ascii_word_not_space (c : Z) :
  ascii_word c || ascii_digit c = true ->
  ascii_space c = false /\ ascii_strip_space c = false /\
  c <> 10%Z /\ c <> 38%Z /\ c <> 124%Z.
Proof.
  unfold ascii_word, ascii_strip_space, ascii_space, ascii_digit.
  rewrite !orb_true_iff, !andb_true_iff, !orb_false_iff, !andb_false_iff,
    !Z.leb_le, !Z.leb_gt, !Z.eqb_eq, !Z.eqb_neq.
  lia.
Qed.

Lemma clean_text_fixpoint_witness :
  clean_text ascii_space ascii_word ascii_digit ascii_strip_space [97; 32; 98]%Z
    = [97; 32; 98]%Z.
Proof.
  apply (clean_text_fixpoint ascii_space ascii_word ascii_digit ascii_strip_space).
  - reflexivity.
  - apply ascii_word_not_space.
  - repeat (constructor; [(left; reflexivity) || (right; reflexivity)|]). constructor.
  - intros [|[|[|i]]] H; cbn in *; congruence.
  - discriminate.
  - discriminate.
Defined.

(** ** Cosine similarity *)

Lemma SFmul_comm (x y : spec_float) : SF64mul x y = SF64mul y x.
Proof.
  unfold SF64mul, SFmul.
  destruct x as [sx|sx| |sx mx ex], y as [sy|sy| |sy my ey];
    try reflexivity; rewrite ?(xorb_comm sx sy); try reflexivity.
  by rewrite (Pos.mul_comm mx my), (Z.add_comm ex ey).
Qed.

Lemma float_mul_comm (x y : float) : (x * y)%float = (y * x)%float.
Proof. apply Prim2SF_inj. by rewrite !mul_spec, SFmul_comm. Qed.

Lemma dot_fold_comm (a b : list float) (acc : float) :
  fold_left (fun acc xy => (acc + xy.1 * xy.2)%float) (combine a b) acc
  = fold_left (fun acc xy => (acc + xy.1 * xy.2)%float) (combine b a) acc.
Proof.
  revert b acc. induction a as [|x a IH]; intros [|y b] acc; cbn; try done.
  by rewrite (float_mul_comm x y), IH.
Qed.

(** X5. The score does not depend on the order of the two vectors: the
    float64 results are identical, and so is the ValueError for vectors of
    different lengths. *)
Theorem cosine_similarity_sym (embedding1 embedding2 : Embedding) :
  cosine_similarity embedding1 embedding2 = cosine_similarity embedding2 embedding1.
Proof.
  unfold cosine_similarity, np_dot.
  rewrite (Nat.eqb_sym (length embedding2)).
  destruct (length embedding1 =? length embedding2); [|done].
  unfold rbind. cbv beta iota.
  by rewrite dot_fold_comm,
    (float_mul_comm (np_linalg_norm embedding1) (np_linalg_norm embedding2)).
Qed.

(** X6. [distances_from_embeddings] returns exactly when every embedding has
    the length of the query, and then one score per embedding; otherwise it
    raises ValueError, whatever else the list holds. *)
Theorem distances_from_embeddings_result
    (query_embedding : Embedding) (embeddings : list Embedding) :
  match distances_from_embeddings query_embedding embeddings with
  | Ok distances =>
      length distances = length embeddings /\
      Forall (fun e => length e = length query_embedding) embeddings
  | Raise e =>
      e = ValueError /\
      Exists (fun e => length e <> length query_embedding) embeddings
  end.
Proof.
  induction embeddings as [|e rest IH]; cbn; [by split|].
  unfold cosine_similarity, np_dot.
  destruct (Nat.eqb_spec (length query_embedding) (length e)) as [Hlen|Hlen]; cbn.
  - destruct (distances_from_embeddings query_embedding rest) as [ds|x]; cbn.
    + destruct IH as [IH1 IH2]. split; [by rewrite IH1|by constructor].
    + destruct IH as [IH1 IH2]. split; [done|by right].
  - split; [done|]. left. congruence.
Qed.

(** ** Indexing, order and effects of the recommendations *)

Lemma py_index_negative {A} (l : list A) (i : Z) :
  (0 <= i < Z.of_nat (length l))%Z ->
  py_index l (i - Z.of_nat (length l)) = py_index l i.
Proof.
  intros Hi. unfold py_index.
  destruct (Z.ltb_spec (i - Z.of_nat (length l)) 0); [|lia].
  destruct (Z.ltb_spec i 0); [lia|].
  by replace (i - Z.of_nat (length l) + Z.of_nat (length l))%Z with i by lia.
Qed.

Lemma py_index_out_of_range {A} (l : list A) (i : Z) :
  (Z.of_nat (length l) <= i \/ i < - Z.of_nat (length l))%Z ->
  py_index l i = Raise IndexError.
Proof.
  intros Hi. unfold py_index.
  destruct (Z.ltb_spec i 0).
  - destruct (Z.ltb_spec (i + Z.of_nat (length l)) 0); [done|lia].
  - destruct (Z.ltb_spec i 0); [lia|].
    rewrite lookup_ge_None_2; [done|lia].
Qed.

Lemma StronglySorted_take {A} (R : A -> A -> Prop) (l : list A) (n : nat) :
  StronglySorted R l -> StronglySorted R (take n l).
Proof.
  intros H. rewrite <- (take_drop n l) in H. by apply StronglySorted_app_1_l in H.
Qed.

Lemma StronglySorted_filter {A} (R : A -> A -> Prop) (P : A -> Prop)
    `{!forall x, Decision (P x)} (l : list A) :
  StronglySorted R l -> StronglySorted R (filter P l).
Proof.
  induction 1 as [|x l Hs IH Hx]; [constructor|].
  rewrite filter_cons. destruct (decide (P x)); [|done].
  constructor; [done|].
  rewrite Forall_forall in Hx |- *. intros y Hy.
  apply list_elem_of_filter in Hy as [_ Hy]. by apply Hx.
Qed.

Lemma StronglySorted_fmap_inv {A B} (f : A -> B) (R : B -> B -> Prop) (l : list A) :
  StronglySorted R (f <$> l) -> StronglySorted (fun a b => R (f a) (f b)) l.
Proof.
  induction l as [|x l IH]; cbn; intros H; [constructor|].
  apply StronglySorted_cons in H as [Hx Hs].
  constructor; [by apply IH|]. by rewrite Forall_fmap in Hx.
Qed.

Section RecommendationEffects.
Variable provider : nat -> string -> string -> result Embedding.
Variable file_system : nat -> write_outcome.

(** X7. A negative index counts from the end of the corpus: the call with
    [i - len(strings)] does in every respect what the call with [i] does. *)
Theorem print_recommendations_negative_index
    (strings : list string) (i k : Z) (model : string) (w : World) :
  (0 <= i < Z.of_nat (length strings))%Z ->
  print_recommendations_from_strings provider file_system strings
    (i - Z.of_nat (length strings)) k model w
  = print_recommendations_from_strings provider file_system strings i k model w.
Proof.
  intros Hi. unfold print_recommendations_from_strings. unfold bind at 1 6.
  destruct (mapM (fun s => embedding_from_string provider file_system s model) strings w)
    as [[embs|e] w1] eqn:Hm; [|done].
  pose proof (mapM_embedding_spec _ _ _ _ _ _ _ Hm) as (_ & _ & Hv).
  destruct (Hv embs eq_refl) as [Hlen _].
  rewrite (py_index_negative strings i Hi).
  rewrite <- Hlen, py_index_negative by (by rewrite Hlen). done.
Qed.

(** X8. An index outside [-len(strings), len(strings)), so any index on an
    empty corpus, makes the call raise IndexError, but only after every
    string was looked up: nothing is printed, while the embeddings the
    lookups computed are in the cache. *)
Theorem print_recommendations_index_error
    (strings : list string) (index k : Z) (model : string) (w : World)
    (embeddings : list Embedding) (w1 : World) :
  (Z.of_nat (length strings) <= index \/ index < - Z.of_nat (length strings))%Z ->
  mapM (fun s => embedding_from_string provider file_system s model) strings w
    = (Ok embeddings, w1) ->
  print_recommendations_from_strings provider file_system strings index k model w
    = (Raise IndexError, w1) /\
  stdout w1 = stdout w /\
  forall s, s ∈ strings -> is_Some (embedding_cache w1 !! (s, model)).
Proof.
  intros Hi Hm.
  pose proof (mapM_embedding_spec _ _ _ _ _ _ _ Hm) as (_ & Hout & Hv).
  destruct (Hv embeddings eq_refl) as [Hlen Hl].
  split_and!; [|done|].
  - apply (print_recommendations_rank_raises _ _ _ _ _ _ _ _ _ _ Hm).
    unfold rank. rewrite py_index_out_of_range; [done|]. by rewrite Hlen.
  - intros s Hs. apply list_elem_of_lookup in Hs as [i Hs].
    destruct (Hl i s Hs) as (v & _ & Hc). by exists v.
Qed.

(** X9. Without a NaN among the scores the recommendations are printed
    nearest first: each printed distance is the score of the printed
    string's index and is not above the one printed before it, and the
    records are numbered 1, 2, ... and carry the requested k. *)
Theorem recommendations_printed_nearest_first
    (strings : list string) (index k : Z) (model : string) (w : World)
    (embeddings : list Embedding) (w1 : World) (ds : list float) (ranking : list nat) :
  mapM (fun s => embedding_from_string provider file_system s model) strings w
    = (Ok embeddings, w1) ->
  rank embeddings index = Ok (ds, ranking) ->
  ordered_scores ds ->
  exists recs,
    print_recommendations_from_strings provider file_system strings index k model w
      = (Ok ranking, with_stdout (stdout w1 ++ recs) w1) /\
    StronglySorted
      (fun r1 r2 => PrimFloat.leb (rec_distance r2) (rec_distance r1) = true) recs /\
    forall n r, recs !! n = Some r ->
      rec_number r = (1 + Z.of_nat n)%Z /\
      rec_of r = k /\
      rec_distance r = distance_at ds (rec_index r).
Proof.
  intros Hm Hr Hord.
  destruct (print_recommendations_returns provider file_system
              strings index k model w _ _ _ _ Hm Hr)
    as (qs & recs & _ & Hp & Hidx & Hrecs).
  exists recs. split; [done|].
  assert (Hd : forall r, r ∈ recs -> rec_distance r = distance_at ds (rec_index r)).
  { intros r [n Hn]%list_elem_of_lookup.
    destruct (Hrecs n r Hn) as (_ & Hdn & _). by rewrite (distance_at_lookup _ _ _ Hdn). }
  split.
  - apply rank_inv in Hr as (_ & _ & _ & ->).
    pose proof (ranking_sorted_leb ds Hord) as Hs.
    apply (StronglySorted_filter _ (qualifying strings qs)) in Hs.
    apply (StronglySorted_take _ _ (Z.to_nat k)) in Hs.
    unfold recommended in Hidx. rewrite <- Hidx in Hs.
    apply StronglySorted_fmap_inv in Hs.
    eapply StronglySorted_impl_elem; [|exact Hs].
    intros r1 r2 H1 H2. cbn. by rewrite (Hd r1 H1), (Hd r2 H2).
  - intros n r Hn. destruct (Hrecs n r Hn) as (_ & _ & _ & ? & ?).
    split_and!; [done..|]. apply Hd. by eapply list_elem_of_lookup_2.
Qed.

(** X10. The recommendations for a smaller k are the first ones of those
    for a larger k: the indices printed with [k1] are the first [k1] of
    the indices printed with [k2], and both calls leave the same cache,
    file and log. *)
Theorem recommendations_prefix
    (strings : list string) (index k1 k2 : Z) (model : string) (w : World)
    (embeddings : list Embedding) (w1 : World) (ds : list float) (ranking : list nat) :
  mapM (fun s => embedding_from_string provider file_system s model) strings w
    = (Ok embeddings, w1) ->
  rank embeddings index = Ok (ds, ranking) ->
  (k1 <= k2)%Z ->
  exists recs1 recs2,
    print_recommendations_from_strings provider file_system strings index k1 model w
      = (Ok ranking, with_stdout (stdout w1 ++ recs1) w1) /\
    print_recommendations_from_strings provider file_system strings index k2 model w
      = (Ok ranking, with_stdout (stdout w1 ++ recs2) w1) /\
    rec_index <$> recs1 = take (Z.to_nat k1) (rec_index <$> recs2).
Proof.
  intros Hm Hr Hk.
  destruct (print_recommendations_returns provider file_system
              strings index k1 model w _ _ _ _ Hm Hr)
    as (qs1 & recs1 & Hq1 & Hp1 & Hidx1 & _).
  destruct (print_recommendations_returns provider file_system
              strings index k2 model w _ _ _ _ Hm Hr)
    as (qs2 & recs2 & Hq2 & Hp2 & Hidx2 & _).
  exists recs1, recs2. split_and!; [done..|].
  assert (qs1 = qs2) as -> by congruence.
  rewrite Hidx1, Hidx2. unfold recommended.
  rewrite take_take. f_equal. lia.
Qed.
End RecommendationEffects.

(** ** The cache, the file and the provider over a session *)

Lemma load_pickled (file_system : nat -> write_outcome) (w : World) c :
  cache_file w = Pickled c ->
  embedding_cache (load_embedding_cache file_system w).2 = c.
Proof.
  intros Hf.
  unfold load_embedding_cache, bind, try_except, read_pickle, assign_cache, pickle_dump.
  rewrite Hf. cbn. by destruct (file_system (writes w)).
Qed.

Lemma load_absent (file_system : nat -> write_outcome) (w : World) :
  cache_file w = Absent ->
  embedding_cache (load_embedding_cache file_system w).2 = ∅.
Proof.
  intros Hf.
  unfold load_embedding_cache, bind, try_except, read_pickle, assign_cache, pickle_dump.
  rewrite Hf. rewrite decide_True by done. cbn. by destruct (file_system (writes w)).
Qed.

Lemma load_corrupt (file_system : nat -> write_outcome) (w : World) :
  cache_file w = Corrupt ->
  load_embedding_cache file_system w = (Raise UnpicklingError, w).
Proof.
  intros Hf.
  unfold load_embedding_cache, bind, try_except, read_pickle, assign_cache, pickle_dump.
  by rewrite Hf.
Qed.

Section SessionInvariants.
Variable provider : nat -> string -> string -> result Embedding.
Variable file_system : nat -> write_outcome.

(** A property of the world that every lookup keeps, and that does not
    depend on the output, holds throughout a session. *)
Section Invariant.
Variable P : World -> Prop.
Hypothesis P_lookup : forall text model w,
  P w -> P (embedding_from_string provider file_system text model w).2.
Hypothesis P_stdout : forall o w, P w -> P (with_stdout o w).

Lemma mapM_invariant (model : string) (strings : list string) (w : World) :
  P w ->
  P (mapM (fun s => embedding_from_string provider file_system s model) strings w).2.
Proof.
  revert w. induction strings as [|s0 rest IH]; intros w Hw; cbn; [done|].
  unfold bind at 1. pose proof (P_lookup s0 model w Hw) as H0.
  destruct (embedding_from_string provider file_system s0 model w) as [[v|e] w0];
    cbn in *; [|done].
  unfold bind at 1. pose proof (IH w0 H0) as H1.
  by destruct (mapM (fun s => embedding_from_string provider file_system s model) rest w0)
    as [[vs|e] w1].
Qed.

Lemma perform_invariant (op : operation) (w : World) :
  P w -> P (perform provider file_system op w).
Proof.
  intros Hw. destruct op as [t m|strings index k model]; cbn; [by apply P_lookup|].
  pose proof (mapM_invariant model strings w Hw) as H1.
  destruct (mapM (fun s => embedding_from_string provider file_system s model) strings w)
    as [[embs|e] w1] eqn:Hm; cbn in H1.
  - destruct (rank embs index) as [[ds ranking]|e] eqn:Hr.
    + destruct (print_recommendations_returns provider file_system
                  strings index k model w _ _ _ _ Hm Hr) as (? & ? & _ & -> & _).
      by apply P_stdout.
    + by rewrite (print_recommendations_rank_raises _ _ _ _ _ _ _ _ _ _ Hm Hr).
  - by rewrite (print_recommendations_lookup_raises _ _ _ _ _ _ _ _ _ Hm).
Qed.

Lemma run_session_invariant (ops : list operation) (w : World) :
  P w -> P (run_session provider file_system ops w).
Proof.
  revert w. induction ops as [|op ops IH]; intros w Hw; cbn; [done|].
  by apply IH, perform_invariant.
Qed.
End Invariant.

Lemma lookup_keeps_in_sync (text model : string) (w : World) :
  (forall n, file_system n = Written) ->
  in_sync w -> in_sync (embedding_from_string provider file_system text model w).2.
Proof.
  intros Hf Hw. destruct (embedding_cache w !! (text, model)) as [v|] eqn:E.
  - by rewrite (embedding_from_string_hit _ _ _ _ _ _ E).
  - rewrite (embedding_from_string_miss _ _ _ _ _ E). cbv zeta.
    destruct (provider (length (api_log w)) text model); [|done].
    by rewrite Hf.
Qed.

(** X11. As long as every write succeeds the file holds exactly the dict:
    the set-up cell establishes this for any file that unpickles or is
    missing, every lookup and every recommendation call keeps it, and a
    new kernel that loads the file starts with the very cache the old
    kernel had. *)
Theorem cache_file_in_sync (ops : list operation) (w : World) :
  (forall n, file_system n = Written) ->
  (cache_file w <> Corrupt -> in_sync (load_embedding_cache file_system w).2) /\
  (in_sync w ->
   in_sync (run_session provider file_system ops w) /\
   forall file_system',
     embedding_cache
       (load_embedding_cache file_system'
          (restart (run_session provider file_system ops w))).2
     = embedding_cache (run_session provider file_system ops w)).
Proof.
  intros Hf. split.
  - intros Hc.
    unfold load_embedding_cache, bind, try_except, read_pickle, assign_cache, pickle_dump.
    destruct w as [c f l n o]. cbn in *.
    destruct f; cbn; [rewrite decide_True by done; cbn|done|]; by rewrite Hf.
  - intros Hw.
    assert (Hs : in_sync (run_session provider file_system ops w)).
    { apply run_session_invariant; [|done..].
      intros t m w0. by apply lookup_keeps_in_sync. }
    split; [done|]. intros fs'. by apply load_pickled.
Qed.

Lemma lookup_keeps_file_consistent (text model : string) (w : World) :
  file_consistent w ->
  file_consistent (embedding_from_string provider file_system text model w).2.
Proof.
  intros Hw. destruct (embedding_cache w !! (text, model)) as [v|] eqn:E.
  - by rewrite (embedding_from_string_hit _ _ _ _ _ _ E).
  - rewrite (embedding_from_string_miss _ _ _ _ _ E). cbv zeta.
    destruct (provider (length (api_log w)) text model) as [v|e]; [|done].
    destruct (file_system (writes w)); unfold file_consistent in *; cbn; [done| |done].
    destruct (cache_file w); [done..|].
    etrans; [exact Hw|]. by apply insert_subseteq.
Qed.

(** X12. Whatever fails, the file is never ahead of the dict nor at odds
    with it: if every entry of the file is in the dict before a session, so
    it is after, and a new kernel that then loads the file (or finds it
    missing or unreadable) starts with entries of the old kernel's cache
    only, each with its old embedding. *)
Theorem cache_file_never_ahead (ops : list operation) (w : World) :
  file_consistent w ->
  file_consistent (run_session provider file_system ops w) /\
  forall file_system' key v,
    embedding_cache
      (load_embedding_cache file_system'
         (restart (run_session provider file_system ops w))).2 !! key = Some v ->
    embedding_cache (run_session provider file_system ops w) !! key = Some v.
Proof.
  intros Hw.
  assert (Hs : file_consistent (run_session provider file_system ops w)).
  { apply run_session_invariant; [|done..].
    intros t m w0. apply lookup_keeps_file_consistent. }
  split; [done|]. intros fs' key v.
  unfold file_consistent in Hs. unfold restart.
  destruct (cache_file (run_session provider file_system ops w)) as [| |c] eqn:Hf.
  - rewrite (load_absent fs' (fresh_world Absent) eq_refl). by rewrite lookup_empty.
  - rewrite (load_corrupt fs' (fresh_world Corrupt) eq_refl). cbn. by rewrite lookup_empty.
  - rewrite (load_pickled fs' (fresh_world (Pickled c)) c eq_refl).
    intros Hc. by eapply lookup_weaken.
Qed.

(** X13. The file is rewritten once for every embedding the provider
    returns and at no other time: over a session the number of attempts
    to write it grows by the number of provider calls that answered; a
    lookup served from the dict and a provider call that raises leave the
    file alone. *)
Theorem one_write_per_answer (ops : list operation) (w : World) :
  exists ext,
    api_log (run_session provider file_system ops w) = api_log w ++ ext /\
    writes (run_session provider file_system ops w) = writes w + answers ext.
Proof.
  apply (run_session_invariant
           (fun w' => exists ext, api_log w' = api_log w ++ ext /\
                                  writes w' = writes w + answers ext)).
  - intros t m w0 (ext & Hl & Hn).
    destruct (embedding_cache w0 !! (t, m)) as [v|] eqn:E.
    + rewrite (embedding_from_string_hit _ _ _ _ _ _ E). by exists ext.
    + rewrite (embedding_from_string_miss _ _ _ _ _ E). cbv zeta.
      exists (ext ++ [(t, m, provider (length (api_log w0)) t m)]).
      unfold answers in *. rewrite List.filter_app, length_app.
      destruct (provider (length (api_log w0)) t m) as [v|e]; cbn.
      * destruct (file_system (writes w0)); cbn; rewrite Hl, Hn, app_assoc;
          (split; [done|lia]).
      * rewrite Hl, Hn, app_assoc. split; [done|lia].
  - intros o w0 H. by destruct w0.
  - exists []. unfold answers. cbn. split; [by rewrite app_nil_r|lia].
Qed.

(** X14. When the comprehension over the corpus returns, the provider was
    called exactly once for every distinct text that the cache did not
    hold for the model, and for nothing else: a text that occurs twice is
    computed once, a cached text not at all. *)
Theorem comprehension_calls_provider_once_per_new_text
    (model : string) (strings : list string) (w : World)
    (embeddings : list Embedding) (w1 : World) :
  mapM (fun s => embedding_from_string provider file_system s model) strings w
    = (Ok embeddings, w1) ->
  exists ext,
    api_log w1 = api_log w ++ ext /\
    forall key,
      invocations key ext =
        if decide (key.2 = model /\ key.1 ∈ strings /\ embedding_cache w !! key = None)
        then 1 else 0.
Proof.
  revert w embeddings w1.
  induction strings as [|s0 rest IH]; intros w embs w1 Hm; cbn in Hm.
  - injection Hm as <- <-. exists []. split; [by rewrite app_nil_r|].
    intros key. rewrite decide_False; [done|]. intros (_ & H & _). by apply elem_of_nil in H.
  - unfold bind at 1 in Hm.
    destruct (embedding_from_string provider file_system s0 model w) as [[v|e] w0] eqn:E0;
      [|done].
    unfold bind at 1 in Hm.
    destruct (mapM (fun s => embedding_from_string provider file_system s model) rest w0)
      as [[vs|e] w2] eqn:Em; [|done].
    cbn in Hm. injection Hm as <- <-.
    destruct (IH _ _ _ Em) as (ext2 & Hlog2 & Hinv2).
    destruct (embedding_cache w !! (s0, model)) as [v'|] eqn:Ec.
    + rewrite (embedding_from_string_hit _ _ _ _ _ _ Ec) in E0. injection E0 as <- <-.
      exists ext2. split; [done|]. intros key. rewrite Hinv2.
      apply decide_ext. destruct key as [t m]. cbn. split.
      * intros (-> & Ht & Hn). split_and!; [done|by right|done].
      * intros (-> & Ht & Hn). split_and!; [done| |done].
        apply elem_of_cons in Ht as [->|Ht]; [congruence|done].
    + rewrite (embedding_from_string_miss _ _ _ _ _ Ec) in E0. cbv zeta in E0.
      destruct (provider (length (api_log w)) s0 model) as [v0|e0]; [|done].
      assert (Hw0 : api_log w0 = api_log w ++ [(s0, model, Ok v0)] /\
                    embedding_cache w0 = <[(s0, model) := v0]> (embedding_cache w)).
      { destruct (file_system (writes w)); [|done..]. by injection E0 as <- <-. }
      destruct Hw0 as [Hl0 Hc0].
      exists ((s0, model, Ok v0) :: ext2).
      split; [by rewrite Hlog2, Hl0, <- app_assoc|].
      intros key. unfold invocations in *. cbn [List.filter]. unfold called at 1. cbn.
      destruct (decide ((s0, model) = key)) as [<-|Hne].
      * rewrite bool_decide_eq_true_2 by done. cbn. rewrite Hinv2, Hc0.
        rewrite decide_False by (intros (_ & _ & H); by rewrite lookup_insert_eq in H).
        rewrite decide_True; [done|]. split_and!; [done|by left|done].
      * rewrite bool_decide_eq_false_2 by done. rewrite Hinv2, Hc0.
        rewrite lookup_insert_ne by done.
        apply decide_ext. destruct key as [t m]. cbn. split.
        -- intros (-> & Ht & Hn). split_and!; [done|by right|done].
        -- intros (-> & Ht & Hn). split_and!; [done| |done].
           apply elem_of_cons in Ht as [->|Ht]; [congruence|done].
Qed.
End SessionInvariants.

(** ** Instances of the further properties *)

Lemma print_recommendations_negative_index_witness :
  print_recommendations_from_strings toy_provider disk_ok ["A"; "B"]%string
    (1 - Z.of_nat (length ["A"; "B"]%string)) 1 "m" (fresh_world Absent)
  = print_recommendations_from_strings toy_provider disk_ok ["A"; "B"]%string
      1 1 "m" (fresh_world Absent).
Proof.
  apply (print_recommendations_negative_index toy_provider disk_ok
           ["A"; "B"]%string 1 1 "m"%string (fresh_world Absent)).
  simpl. lia.
Defined.

Lemma print_recommendations_index_error_witness :
  print_recommendations_from_strings toy_provider disk_ok ["A"; "B"]%string
    2 1 "m" (fresh_world Absent)
  = (Raise IndexError,
     (mapM (fun s => embedding_from_string toy_provider disk_ok s "m")
           ["A"; "B"]%string (fresh_world Absent)).2) /\
  stdout (mapM (fun s => embedding_from_string toy_provider disk_ok s "m")
               ["A"; "B"]%string (fresh_world Absent)).2 = [] /\
  forall s, s ∈ ["A"; "B"]%string ->
    is_Some (embedding_cache
               (mapM (fun s => embedding_from_string toy_provider disk_ok s "m")
                     ["A"; "B"]%string (fresh_world Absent)).2 !! (s, "m"%string)).
Proof.
  apply (print_recommendations_index_error toy_provider disk_ok
           ["A"; "B"]%string 2 1 "m"%string (fresh_world Absent)
           [[1%float; 0%float]; [0%float; 1%float]]).
  - simpl. lia.
  - vm_compute. reflexivity.
Defined.

Lemma recommendations_printed_nearest_first_witness :
  exists recs,
    print_recommendations_from_strings toy_provider disk_ok
      ["A"; "B"; "A"]%string 1 2 "m" (fresh_world Absent)
      = (Ok [1; 2; 0],
         with_stdout (stdout
           (mapM (fun s => embedding_from_string toy_provider disk_ok s "m")
                 ["A"; "B"; "A"]%string (fresh_world Absent)).2 ++ recs)
           (mapM (fun s => embedding_from_string toy_provider disk_ok s "m")
                 ["A"; "B"; "A"]%string (fresh_world Absent)).2) /\
    StronglySorted
      (fun r1 r2 => PrimFloat.leb (rec_distance r2) (rec_distance r1) = true) recs /\
    forall n r, recs !! n = Some r ->
      rec_number r = (1 + Z.of_nat n)%Z /\
      rec_of r = 2%Z /\
      rec_distance r = distance_at [0%float; 1%float; 0%float] (rec_index r).
Proof.
  apply (recommendations_printed_nearest_first toy_provider disk_ok
           ["A"; "B"; "A"]%string 1 2 "m"%string (fresh_world Absent)
           [[1%float; 0%float]; [0%float; 1%float]; [1%float; 0%float]]
           _ [0%float; 1%float; 0%float] [1; 2; 0]).
  - vm_compute. reflexivity.
  - vm_compute. reflexivity.
  - repeat constructor.
Defined.

Lemma recommendations_prefix_witness :
  exists recs1 recs2,
    print_recommendations_from_strings toy_provider disk_ok
      ["A"; "B"; "C"]%string 0 1 "m" (fresh_world Absent)
      = (Ok [0; 2; 1],
         with_stdout (stdout
           (mapM (fun s => embedding_from_string toy_provider disk_ok s "m")
                 ["A"; "B"; "C"]%string (fresh_world Absent)).2 ++ recs1)
           (mapM (fun s => embedding_from_string toy_provider disk_ok s "m")
                 ["A"; "B"; "C"]%string (fresh_world Absent)).2) /\
    print_recommendations_from_strings toy_provider disk_ok
      ["A"; "B"; "C"]%string 0 2 "m" (fresh_world Absent)
      = (Ok [0; 2; 1],
         with_stdout (stdout
           (mapM (fun s => embedding_from_string toy_provider disk_ok s "m")
                 ["A"; "B"; "C"]%string (fresh_world Absent)).2 ++ recs2)
           (mapM (fun s => embedding_from_string toy_provider disk_ok s "m")
                 ["A"; "B"; "C"]%string (fresh_world Absent)).2) /\
    rec_index <$> recs1 = take (Z.to_nat 1) (rec_index <$> recs2).
Proof.
  apply (recommendations_prefix toy_provider disk_ok
           ["A"; "B"; "C"]%string 0 1 2 "m"%string (fresh_world Absent)
           [[1%float; 0%float]; [0%float; 1%float]; [0%float; 1%float]]
           _ [1%float; 0%float; 0%float] [0; 2; 1]).
  - vm_compute. reflexivity.
  - vm_compute. reflexivity.
  - lia.
Defined.

Lemma cache_file_in_sync_witness :
  in_sync (run_session toy_provider disk_ok [Lookup "A" "m"; Lookup "B" "m"]
             (load_embedding_cache disk_ok (fresh_world Absent)).2) /\
  forall file_system',
    embedding_cache
      (load_embedding_cache file_system'
         (restart (run_session toy_provider disk_ok [Lookup "A" "m"; Lookup "B" "m"]
                     (load_embedding_cache disk_ok (fresh_world Absent)).2))).2
    = embedding_cache
        (run_session toy_provider disk_ok [Lookup "A" "m"; Lookup "B" "m"]
           (load_embedding_cache disk_ok (fresh_world Absent)).2).
Proof.
  apply (proj2 (cache_file_in_sync toy_provider disk_ok
                  [Lookup "A" "m"; Lookup "B" "m"]
                  (load_embedding_cache disk_ok (fresh_world Absent)).2
                  (fun n => eq_refl))).
  reflexivity.
Defined.

Lemma cache_file_never_ahead_witness :
  (cache_file (run_session toy_provider disk_fails_second
                 [Lookup "A" "m"; Lookup "B" "m"] (fresh_world (Pickled ∅)))
     = Pickled (<[("A", "m")%string := [1%float; 0%float]]> ∅) /\
   embedding_cache (run_session toy_provider disk_fails_second
                      [Lookup "A" "m"; Lookup "B" "m"] (fresh_world (Pickled ∅)))
     !! ("B", "m")%string = Some [0%float; 1%float]) /\
  file_consistent (run_session toy_provider disk_fails_second
                     [Lookup "A" "m"; Lookup "B" "m"] (fresh_world (Pickled ∅))) /\
  forall file_system' key v,
    embedding_cache
      (load_embedding_cache file_system'
         (restart (run_session toy_provider disk_fails_second
                     [Lookup "A" "m"; Lookup "B" "m"] (fresh_world (Pickled ∅))))).2
      !! key = Some v ->
    embedding_cache (run_session toy_provider disk_fails_second
                       [Lookup "A" "m"; Lookup "B" "m"] (fresh_world (Pickled ∅)))
      !! key = Some v.
Proof.
  split; [split; vm_compute; reflexivity|].
  apply (cache_file_never_ahead toy_provider disk_fails_second
           [Lookup "A" "m"; Lookup "B" "m"] (fresh_world (Pickled ∅))).
  unfold file_consistent. simpl. reflexivity.
Defined.

Lemma comprehension_calls_provider_once_per_new_text_witness :
  exists ext,
    api_log (mapM (fun s => embedding_from_string toy_provider disk_ok s "m")
                  ["A"; "A"; "B"]%string (fresh_world Absent)).2 = [] ++ ext /\
    forall key,
      invocations key ext =
        if decide (key.2 = "m"%string /\ key.1 ∈ ["A"; "A"; "B"]%string /\
                   (∅ : gmap (string * string) Embedding) !! key = None)
        then 1 else 0.
Proof.
  apply (comprehension_calls_provider_once_per_new_text toy_provider disk_ok
           "m"%string ["A"; "A"; "B"]%string (fresh_world Absent)
           [[1%float; 0%float]; [1%float; 0%float]; [0%float; 1%float]]).
  vm_compute. reflexivity.
Defined.

(** ** The ranking is determined; what a failing call leaves behind *)

(** X15. Without a NaN among the scores the ranking is the only
    arrangement of the indices in which a higher score comes first and, of
    two scores that [<] does not separate, the higher index: it does not
    depend on how the sort proceeds. *)
Theorem ranking_determined (ds : list float) (l : list nat) :
  ordered_scores ds ->
  l ≡ₚ seq 0 (length ds) ->
  StronglySorted (ranked_before ds) l ->
  l = indices_of_closest_matches_from_distances ds.
Proof.
  intros Hord Hperm Hs.
  unfold indices_of_closest_matches_from_distances, range.
  rewrite <- (reverse_involutive l). f_equal.
  apply (sorted_range_unique PrimFloat.ltb (distance_at ds) (fun d => is_nan d = false)).
  - apply ltb_asym.
  - apply ltb_negtrans.
  - intros i Hi. by apply ordered_scores_at.
  - by rewrite reverse_Permutation.
  - apply (StronglySorted_reverse (ranked_before ds)), Hs.
Qed.

Lemma ranking_determined_witness :
  [1; 0; 2] = indices_of_closest_matches_from_distances [1%float; 1%float; 0%float].
Proof.
  apply (ranking_determined [1%float; 1%float; 0%float] [1; 0; 2]).
  - repeat constructor.
  - apply Permutation_swap.
  - apply StronglySorted_cons. split.
    + apply Forall_cons. split; [right; split; [reflexivity|lia]|].
      apply Forall_cons. split; [left; reflexivity|constructor].
    + apply StronglySorted_cons. split.
      * apply Forall_cons. split; [left; reflexivity|constructor].
      * apply StronglySorted_cons. split; constructor.
Defined.

Lemma py_index_raises {A} (l : list A) (i : Z) (e : exn) :
  py_index l i = Raise e -> e = IndexError.
Proof.
  unfold py_index.
  destruct (_ <? 0)%Z; [congruence|].
  destruct (l !! _); congruence.
Qed.

Lemma distances_from_embeddings_raises (q : Embedding) (embeddings : list Embedding) e :
  distances_from_embeddings q embeddings = Raise e -> e = ValueError.
Proof.
  induction embeddings as [|x rest IH]; cbn; [done|].
  unfold cosine_similarity, np_dot.
  destruct (length q =? length x); cbn; [|congruence].
  destruct (distances_from_embeddings q rest); cbn; [done|].
  intros [= <-]. by apply IH.
Qed.

Lemma rank_raises (embeddings : list Embedding) (index : Z) (e : exn) :
  rank embeddings index = Raise e -> e = IndexError \/ e = ValueError.
Proof.
  unfold rank.
  destruct (py_index embeddings index) as [eq|e'] eqn:Hq; cbn.
  - destruct (distances_from_embeddings eq embeddings) as [ds|e'] eqn:Hd; cbn; [done|].
    intros [= <-]. right. by eapply distances_from_embeddings_raises.
  - intros [= <-]. left. by eapply py_index_raises.
Qed.

Section Failures.
Variable provider : nat -> string -> string -> result Embedding.
Variable file_system : nat -> write_outcome.

(** X16. A call that raises has printed nothing. It raises what a lookup
    raised, or else IndexError for the index or ValueError for embeddings
    of different lengths, both found only after all lookups were made. *)
Theorem print_recommendations_raises_before_printing
    (strings : list string) (index k : Z) (model : string) (w : World) (e : exn) :
  (print_recommendations_from_strings provider file_system strings index k model w).1
    = Raise e ->
  stdout (print_recommendations_from_strings provider file_system strings index k model w).2
    = stdout w /\
  ((mapM (fun s => embedding_from_string provider file_system s model) strings w).1
     = Raise e \/
   exists embeddings,
     (mapM (fun s => embedding_from_string provider file_system s model) strings w).1
       = Ok embeddings /\
     rank embeddings index = Raise e /\
     (e = IndexError \/ e = ValueError)).
Proof.
  destruct (mapM (fun s => embedding_from_string provider file_system s model) strings w)
    as [[embs|e'] w1] eqn:Hm;
    pose proof (mapM_embedding_spec _ _ _ _ _ _ _ Hm) as (_ & Hout & _).
  - destruct (rank embs index) as [[ds ranking]|e'] eqn:Hr.
    + destruct (print_recommendations_returns provider file_system
                  strings index k model w _ _ _ _ Hm Hr) as (? & ? & _ & -> & _).
      done.
    + rewrite (print_recommendations_rank_raises _ _ _ _ _ _ _ _ _ _ Hm Hr). cbn.
      intros [= ->]. split; [done|]. right. exists embs.
      split_and!; [done..|]. by eapply rank_raises.
  - rewrite (print_recommendations_lookup_raises _ _ _ _ _ _ _ _ _ Hm). cbn.
    intros [= ->]. split; [done|]. by left.
Qed.

(** X17. A lookup raises in two ways only. Either the provider raised:
    then the exception is the provider's and nothing but the log of calls
    has changed, the dict and the file are as before. Or the provider
    answered and the write failed: then the exception is OSError and the
    dict holds the answer. The final read of the dict never raises. *)
Theorem embedding_from_string_raises
    (text model : string) (w w' : World) (e : exn) :
  embedding_from_string provider file_system text model w = (Raise e, w') ->
  embedding_cache w !! (text, model) = None /\
  ((provider (length (api_log w)) text model = Raise e /\
    w' = with_api_log (api_log w ++ [(text, model, Raise e)]) w) \/
   (e = OSError /\
    file_system (writes w) <> Written /\
    exists v, provider (length (api_log w)) text model = Ok v /\
              embedding_cache w' = <[(text, model) := v]> (embedding_cache w))).
Proof.
  destruct (embedding_cache w !! (text, model)) as [v|] eqn:E.
  - by rewrite (embedding_from_string_hit _ _ _ _ _ _ E).
  - rewrite (embedding_from_string_miss _ _ _ _ _ E). cbv zeta.
    destruct (provider (length (api_log w)) text model) as [v|e'].
    + destruct (file_system (writes w)) eqn:Hf; [done| |];
        intros [= <- <-]; (split; [done|]); right; split_and!; try done; by exists v.
    + intros [= <- <-]. split; [done|]. by left.
Qed.
End Failures.

Lemma print_recommendations_raises_before_printing_witness :
  stdout (print_recommendations_from_strings toy_provider disk_ok
            ["A"; "B"]%string 5 1 "m" (fresh_world Absent)).2 = [] /\
  ((mapM (fun s => embedding_from_string toy_provider disk_ok s "m")
         ["A"; "B"]%string (fresh_world Absent)).1 = Raise IndexError \/
   exists embeddings,
     (mapM (fun s => embedding_from_string toy_provider disk_ok s "m")
           ["A"; "B"]%string (fresh_world Absent)).1 = Ok embeddings /\
     rank embeddings 5 = Raise IndexError /\
     (IndexError = IndexError \/ IndexError = ValueError)).
Proof.
  apply (print_recommendations_raises_before_printing toy_provider disk_ok
           ["A"; "B"]%string 5 1 "m"%string (fresh_world Absent) IndexError).
  vm_compute. reflexivity.
Defined.

Lemma embedding_from_string_raises_witness :
  (∅ : gmap (string * string) Embedding) !! ("t", "m")%string = None /\
  ((flaky_provider 0 "t" "m" = Raise APIError /\
    with_api_log [("t", "m", Raise APIError)]%string (fresh_world Absent)
    = with_api_log ([] ++ [("t", "m", Raise APIError)]%string) (fresh_world Absent)) \/
   (APIError = OSError /\
    disk_ok 0 <> Written /\
    exists v, flaky_provider 0 "t" "m" = Ok v /\
              embedding_cache
                (with_api_log [("t", "m", Raise APIError)]%string (fresh_world Absent))
              = <[("t", "m")%string := v]> ∅)).
Proof.
  apply (embedding_from_string_raises flaky_provider disk_ok
           "t"%string "m"%string (fresh_world Absent)).
  vm_compute. reflexivity.
Defined.

(** ** The cache over the lifetime of its file *)



Section Restarts.
Variable provider : nat -> string -> string -> result Embedding.
Variable file_system : nat -> write_outcome.
Hypothesis all_written : forall n, file_system n = Written.

End Restarts.



